(** * song-classifier: the Spotify enrichment pipeline of [src/lib/spotify.js]

    A shallow embedding of [Spotify.getTop100AudioData] and of the helper
    [sleep].  The JavaScript promise chain is written as a state-and-error
    monad over a [World] that records every request handed to Axios, every
    timer and every [console.error]; the upstream API is an oracle [net]. *)

From Stdlib Require Import ZArith String Ascii List Lia Bool.
From stdpp Require Import base option list strings gmap fin_maps.

Local Open Scope string_scope.
Local Open Scope list_scope.
Local Open Scope Z_scope.

(** ** JavaScript values used by the pipeline *)

(** A JavaScript number as the code meets it: an integer, or NaN.  A
    double holds every integer of magnitude up to 2^53 exactly, and sums
    and products of such integers are exact as long as the result stays
    in that range; [JNum z] stands for the double [z] in that range only,
    and the statements that compute with a number carry the bound. *)
Inductive jsnum : Type :=
  | JNum (z : Z)
  | JNaN.

Definition jsnum_add (a b : jsnum) : jsnum :=
  match a, b with
  | JNum x, JNum y => JNum (x + y)
  | _, _ => JNaN
  end.

Definition jsnum_mul (a b : jsnum) : jsnum :=
  match a, b with
  | JNum x, JNum y => JNum (x * y)
  | _, _ => JNaN
  end.

(** The integers a double computes with exactly. *)
Definition exact (z : Z) : Prop := Z.abs z <= 2 ^ 53.

(** The argument [genre] as a caller may pass it. *)
Inductive JsValue : Type :=
  | VUndefined
  | VNull
  | VBool (b : bool)
  | VNumber (n : jsnum)
  | VString (s : string)
  | VObject.

Definition typeof (v : JsValue) : string :=
  match v with
  | VUndefined => "undefined"
  | VNull => "object"
  | VBool _ => "boolean"
  | VNumber _ => "number"
  | VString _ => "string"
  | VObject => "object"
  end.

(** A value that is a string of at least one character. *)
Definition nonempty_string (v : JsValue) : bool :=
  match v with
  | VString s => negb (String.eqb s "")
  | _ => false
  end.

(** String coercion of a nullable string, as in [featureUrl += id + ','] and
    in the property key of [songData[id]]: [None] is [null]. *)
Definition to_str (o : option string) : string :=
  match o with
  | Some s => s
  | None => "null"
  end.

(** Property key of a value read from an array index that may be out of
    range: [None] is [undefined]. *)
Definition prop_key (o : option string) : string :=
  match o with
  | Some s => s
  | None => "undefined"
  end.

(** [s.split(sep)] for a one-character separator. *)
Fixpoint split (sep : ascii) (s : string) : list string :=
  match s with
  | EmptyString => [EmptyString]
  | String c s' =>
      if Ascii.eqb c sep then EmptyString :: split sep s'
      else match split sep s' with
           | [] => [String c EmptyString]
           | x :: xs => String c x :: xs
           end
  end.

(** [s.slice(0, -1)]: everything but the last character. *)
Fixpoint slice_0_m1 (s : string) : string :=
  match s with
  | EmptyString => EmptyString
  | String c EmptyString => EmptyString
  | String c s' => String c (slice_0_m1 s')
  end.

(** ** [parseInt] without a radix argument *)

(** The argument is a header value, which Node hands over as a string of
    Latin-1 characters, one per byte.  The white space [parseInt] skips is,
    in that range, the characters 9 to 13, the space and the no-break
    space 160.  The value is exact up to 2^53. *)
Definition is_space (c : ascii) : bool :=
  let n := nat_of_ascii c in
  ((9 <=? n)%nat && (n <=? 13)%nat) || (n =? 32)%nat || (n =? 160)%nat.

Fixpoint skip_space (s : string) : string :=
  match s with
  | String c s' => if is_space c then skip_space s' else s
  | EmptyString => EmptyString
  end.

Definition digit_of (radix : Z) (c : ascii) : option Z :=
  let n := Z.of_nat (nat_of_ascii c) in
  let v :=
    if (48 <=? n) && (n <=? 57) then Some (n - 48)
    else if (97 <=? n) && (n <=? 122) then Some (n - 87)
    else if (65 <=? n) && (n <=? 90) then Some (n - 55)
    else None in
  match v with
  | Some d => if d <? radix then Some d else None
  | None => None
  end.

(** The longest prefix of digits; [None] when there is no digit at all. *)
Fixpoint parse_digits (radix : Z) (acc : option Z) (s : string) : option Z :=
  match s with
  | EmptyString => acc
  | String c s' =>
      match digit_of radix c with
      | Some d =>
          parse_digits radix
            (Some (radix * match acc with Some a => a | None => 0 end + d)) s'
      | None => acc
      end
  end.

Definition parseInt (s : string) : jsnum :=
  let s1 := skip_space s in
  let '(neg, s2) :=
    match s1 with
    | String "-" r => (true, r)
    | String "+" r => (false, r)
    | _ => (false, s1)
    end in
  let '(radix, s3) :=
    match s2 with
    | String "0" (String "x" r) => (16, r)
    | String "0" (String "X" r) => (16, r)
    | _ => (10, s2)
    end in
  match parse_digits radix None s3 with
  | Some v => JNum (if neg : bool then - v else v)
  | None => JNaN
  end.

(** ** Upstream data *)

(** A track of the listing; every field is nullable upstream. *)
Record Track : Type := mkTrack {
  track_id : option string;
  track_name : option string;
  track_popularity : option Z
}.

(** An entry of [response.data.items]; [track] is null for an entry whose
    track is no longer available. *)
Record TrackItem : Type := mkTrackItem {
  item_track : option Track
}.

(** An entry of [response.data.playlists.items]: its [tracks.href]. *)
Record Playlist : Type := mkPlaylist {
  tracks_href : string
}.

(** An audio-features object: the fields the code reads, and the rest of
    the object as an opaque blob. *)
Record Features : Type := mkFeatures {
  feat_id : option string;
  analysis_url : string;
  feat_rest : string
}.

(** [response.data], by the shape the code dereferences. *)
Inductive Body : Type :=
  | BPlaylists (items : list Playlist)
  | BTracks (items : list TrackItem)
  | BFeatures (audio_features : list (option Features))
  | BAnalysis (payload : string)
  | BOther.

(** What the HTTP layer hands back for a request that got an answer:
    [status], the [retry-after] header, [request.path] and [data]. *)
Record Response : Type := mkResponse {
  status : Z;
  retry_after : option string;
  request_path : string;
  data : Body
}.

(** The network either answers or does not answer at all. *)
Inductive NetResult : Type :=
  | NoResponse
  | Responded (r : Response).

(** The Axios request config.  [method] is always GET; [url] is [None] when
    the code passes [undefined]. *)
Record Request : Type := mkRequest {
  authorization : string;
  url : option string
}.

(** The rejection value of Axios: [err.response] is undefined when no
    answer arrived; [err.config.url] is the url of the request. *)
Record AxiosErr : Type := mkAxiosErr {
  err_response : option Response;
  err_config_url : option string
}.

(** ** The result set *)

(** [songData[id]]: created with [name] and [popularity]; [features] and
    [analysis] are properties added later. *)
Record TrackRecord : Type := mkRecord {
  name : option string;
  popularity : option Z;
  features : option Features;
  analysis : option Body
}.

(** [songData] is a plain object used as a map from track id to record.
    The map holds its own properties, which are what the caller receives
    and serializes.  What [songData[k]] finds beyond them, through the
    prototype, is described by [inherited] and [attachable] below. *)
Abbreviation SongData := (gmap string TrackRecord).

(** The members of [Object.prototype]: for these names [songData[k]] is
    never undefined, whether or not [k] is an own property. *)
Definition object_prototype_names : list string :=
  ["constructor"; "__defineGetter__"; "__defineSetter__"; "hasOwnProperty";
   "__lookupGetter__"; "__lookupSetter__"; "isPrototypeOf";
   "propertyIsEnumerable"; "toString"; "valueOf"; "__proto__";
   "toLocaleString"].

Definition inherited (k : string) : bool :=
  existsb (String.eqb k) object_prototype_names.

(** The names the code itself can add to the prototype: a payload
    attached under the key [__proto__] lands on the prototype, after which
    [features] or [analysis] is found through it.  That state is not part
    of the model: a statement about a key that is not an own property
    excludes these two names. *)
Definition attachable (k : string) : bool :=
  String.eqb k "features" || String.eqb k "analysis".

Definition on_prototype_chain (k : string) : bool :=
  inherited k || attachable k.

(** [songData[k] = rec]: the key [__proto__] reaches the setter of
    [Object.prototype], which replaces the prototype of [songData] by
    [rec] and creates no own property; under any other key the record
    becomes an own property. *)
Definition set_record (sd : SongData) (k : string) (rec : TrackRecord)
  : SongData :=
  if String.eqb k "__proto__" then sd else <[k := rec]> sd.

(** The object built by the [.catch] of the fan-out. *)
Record FailureRecord : Type := mkFailure {
  f_status : Z;
  f_url : option string;
  f_timeout : jsnum
}.

(** An element of [songs]: an Axios response, or a failure record. *)
Inductive Settled : Type :=
  | SResponse (r : Response)
  | SFailure (f : FailureRecord).

(** An element of [retries]: an Axios response, or the empty object. *)
Inductive Retried : Type :=
  | RResponse (r : Response)
  | REmpty.

(** ** Errors, events and the world *)

Inductive JsError : Type :=
  | GenreNotString
  | TypeError
  | AxiosError (e : AxiosErr).

(** What [setTimeout] receives as its first argument. *)
Inductive Callback : Type :=
  | CbUndefined
  | CbResolve.

Inductive Event : Type :=
  | EvRequest (r : Request)
  | EvTimer (cb : Callback) (delay : jsnum)
  | EvResidual (n : nat)
  | EvFatal (e : JsError).

(** [calls] counts the requests issued so far, [now] is the time in
    milliseconds the flow has spent suspended on timers, [trace] the
    observable events in program order. *)
Record World : Type := mkWorld {
  calls : nat;
  now : Z;
  trace : list Event
}.

Definition world0 : World := mkWorld 0 0 [].

Definition emit (e : Event) (w : World) : World :=
  mkWorld (calls w) (now w) (trace w ++ [e]).

(** The requests of a trace, in the order they were issued. *)
Fixpoint requests (evs : list Event) : list Request :=
  match evs with
  | [] => []
  | EvRequest r :: rest => r :: requests rest
  | _ :: rest => requests rest
  end.

(** ** The monad of the promise chain *)

Definition M (A : Type) : Type := World -> (JsError + A) * World.

Definition ret {A : Type} (a : A) : M A := fun w => (inr a, w).

Definition throw {A : Type} (e : JsError) : M A := fun w => (inl e, w).

Definition bind {A B : Type} (m : M A) (k : A -> M B) : M B :=
  fun w =>
    match m w with
    | (inl e, w') => (inl e, w')
    | (inr a, w') => k a w'
    end.

Definition lift {A : Type} (r : JsError + A) : M A :=
  match r with
  | inl e => throw e
  | inr a => ret a
  end.

Notation "'let*' x ':=' m 'in' k" := (bind m (fun x => k))
  (at level 10, x pattern, m at level 100, k at level 200).

(** ** The pipeline *)

Inductive Outcome : Type :=
  | Threw (e : JsError)
  | Rejected (e : JsError)
  | Resolved (sd : SongData).

(** Axios resolves for a status in the 2xx range and rejects otherwise
    (its default [validateStatus]). *)
Definition validateStatus (s : Z) : bool := (200 <=? s) && (s <? 300).

(** How the promise of a request settles, given what the network did. *)
Definition axios_settle (res : NetResult) (req : Request)
  : AxiosErr + Response :=
  match res with
  | NoResponse => inl (mkAxiosErr None (url req))
  | Responded r =>
      if validateStatus (status r) then inr r
      else inl (mkAxiosErr (Some r) (url req))
  end.

(** [songData[song.id].features = song].  An own record receives the
    member.  Without an own record, an inherited name yields a builtin
    function or the prototype itself, which receives the member while the
    own properties stay as they are; any other name yields undefined, or a
    primitive of a replaced prototype, and the assignment throws. *)
Definition set_features (sd : SongData) (song : Features)
  : JsError + SongData :=
  match sd !! to_str (feat_id song) with
  | None => if inherited (to_str (feat_id song)) then inr sd else inl TypeError
  | Some r =>
      inr (<[to_str (feat_id song) :=
               mkRecord (name r) (popularity r) (Some song) (analysis r)]> sd)
  end.

(** [song.request.path.split('/')[3]] *)
Definition path_id (r : Response) : string :=
  prop_key (split "/" (request_path r) !! 3%nat).

(** [songData[id].analysis = song.data] with [id] read off the path; the
    lookup is the one of [set_features]. *)
Definition set_analysis (sd : SongData) (r : Response) : JsError + SongData :=
  match sd !! path_id r with
  | None => if inherited (path_id r) then inr sd else inl TypeError
  | Some rec =>
      inr (<[path_id r :=
               mkRecord (name rec) (popularity rec) (features rec)
                        (Some (data r))]> sd)
  end.

(** The [.catch] of the fan-out (lines 125-131): [err.response.status] is
    read first, so an error without a response throws inside the handler. *)
Definition analysis_catch (err : AxiosErr) : JsError + Settled :=
  match err_response err with
  | None => inl TypeError
  | Some resp =>
      inr (SFailure
             (mkFailure (status resp) (err_config_url err)
                (match retry_after resp with
                 | Some h => if String.eqb h "" then JNaN else parseInt h
                 | None => JNaN
                 end)))
  end.

Definition analysis_settle (p : AxiosErr + Response) : JsError + Settled :=
  match p with
  | inl err => analysis_catch err
  | inr r => inr (SResponse r)
  end.

(** The [.catch( err => {return {}} )] of the retry. *)
Definition retry_settle (p : AxiosErr + Response) : Retried :=
  match p with
  | inl _ => REmpty
  | inr r => RResponse r
  end.

(** [Promise.all]: the values in array order, or a rejection. *)
Fixpoint Promise_all {A : Type} (ps : list (JsError + A)) : JsError + list A :=
  match ps with
  | [] => inr []
  | inl e :: _ => inl e
  | inr a :: rest =>
      match Promise_all rest with
      | inl e => inl e
      | inr l => inr (a :: l)
      end
  end.

Definition settled_status (s : Settled) : Z :=
  match s with
  | SResponse r => status r
  | SFailure f => f_status f
  end.

(** [error.url]: a response object has no such property. *)
Definition settled_url (s : Settled) : option string :=
  match s with
  | SResponse _ => None
  | SFailure f => f_url f
  end.

(** [errors[i].timeout]: undefined on a response object, NaN in sums. *)
Definition settled_timeout (s : Settled) : jsnum :=
  match s with
  | SResponse _ => JNaN
  | SFailure f => f_timeout f
  end.

(** Lines 147-155: the loop over [errors] that stops at the first 429. *)
Fixpoint backoff (errors : list Settled) : jsnum :=
  match errors with
  | [] => JNum 0
  | e :: rest =>
      if settled_status e =? 429
      then jsnum_mul (jsnum_add (settled_timeout e) (JNum 2)) (JNum 1000)
      else backoff rest
  end.

(** Lines 101-108: the loop over [response.data.items]. *)
Fixpoint listing (items : list TrackItem) (featureUrl : string) (sd : SongData)
  : JsError + (string * SongData) :=
  match items with
  | [] => inr (featureUrl, sd)
  | it :: rest =>
      match item_track it with
      | None => inl TypeError
      | Some t =>
          listing rest
            (featureUrl +:+ to_str (track_id t) +:+ ",")
            (set_record sd (to_str (track_id t))
               (mkRecord (track_name t) (track_popularity t) None None))
      end
  end.

(** Lines 137-144: the loop over [songs]. *)
Fixpoint collect (songs : list Settled) (sd : SongData) (errors : list Settled)
  : JsError + (SongData * list Settled) :=
  match songs with
  | [] => inr (sd, errors)
  | song :: rest =>
      if negb (settled_status song =? 200)
      then collect rest sd (errors ++ [song])
      else match song with
           | SFailure _ => inl TypeError
           | SResponse r =>
               match set_analysis sd r with
               | inl e => inl e
               | inr sd' => collect rest sd' errors
               end
           end
  end.

(** Lines 169-176: the loop over [retries]; [({}).status || ''] is [''] . *)
Fixpoint merge_retries (retries : list Retried) (sd : SongData) (i : nat)
  : JsError + (SongData * nat) :=
  match retries with
  | [] => inr (sd, i)
  | REmpty :: rest => merge_retries rest sd (S i)
  | RResponse r :: rest =>
      if status r =? 200
      then match set_analysis sd r with
           | inl e => inl e
           | inr sd' => merge_retries rest sd' i
           end
      else merge_retries rest sd (S i)
  end.

(** [(song.status || '') === 200] on an element of [retries]. *)
Definition retried_ok (x : Retried) : bool :=
  match x with
  | RResponse r => status r =? 200
  | REmpty => false
  end.

(** The responses whose analysis the two loops attach, in order. *)
Fixpoint attached_of_songs (songs : list Settled) : list Response :=
  match songs with
  | [] => []
  | SResponse r :: rest =>
      if status r =? 200 then r :: attached_of_songs rest
      else attached_of_songs rest
  | SFailure _ :: rest => attached_of_songs rest
  end.

Fixpoint attached_of_retries (retries : list Retried) : list Response :=
  match retries with
  | [] => []
  | RResponse r :: rest =>
      if status r =? 200 then r :: attached_of_retries rest
      else attached_of_retries rest
  | REmpty :: rest => attached_of_retries rest
  end.

(** [set_analysis] over a list of responses, first to last. *)
Fixpoint attach_all (rs : list Response) (sd : SongData) : JsError + SongData :=
  match rs with
  | [] => inr sd
  | r :: rest =>
      match set_analysis sd r with
      | inl e => inl e
      | inr sd' => attach_all rest sd'
      end
  end.

(** Timers clamp their delay: NaN and negative delays count as 0. *)
Definition delay_ms (d : jsnum) : Z :=
  match d with
  | JNum z => Z.max 0 z
  | JNaN => 0
  end.

(** [setTimeout(cb, delay)] as seen by the flow that awaits the promise:
    the flow is suspended for [delay] when the timer holds [resolve]. *)
Definition setTimeout (cb : Callback) (delay : jsnum) : M unit :=
  fun w =>
    (inr tt,
     mkWorld (calls w)
       (match cb with
        | CbResolve => now w + delay_ms delay
        | CbUndefined => now w
        end)
       (trace w ++ [EvTimer cb delay])).

(** [resolve()]: the promise is fulfilled at once; the call evaluates to
    undefined. *)
Definition call_resolve : M Callback := ret CbUndefined.

(** Line 7: [new Promise( resolve => setTimeout(resolve(), delay) )].  The
    argument [resolve()] is evaluated before [setTimeout] is entered. *)
Definition sleep (delay : jsnum) : M unit :=
  let* cb := call_resolve in setTimeout cb delay.

(** The documented behaviour, "Delay execution (ms)": [resolve] itself is
    the timer callback. *)
Definition sleep_documented (delay : jsnum) : M unit :=
  setTimeout CbResolve delay.

Section Pipeline.

(** The upstream API: what the network returns for the [n]-th request. *)
Variable net : nat -> Request -> NetResult.

(** [this.accessToken] *)
Variable accessToken : string.

Definition request (u : option string) : Request :=
  mkRequest ("Bearer " +:+ accessToken) u.

Definition playlistRequest (genre : string) : Request :=
  request
    (Some ("https://api.spotify.com/v1/browse/categories/" +:+ genre
           +:+ "/playlists")).

Definition featureUrl0 : string :=
  "https://api.spotify.com/v1/audio-features/?ids=".

(** [Axios(request)]: the request is issued, the promise settles with the
    response or with an error. *)
Definition Axios (req : Request) : M (AxiosErr + Response) :=
  fun w =>
    (inr (axios_settle (net (calls w) req) req),
     mkWorld (S (calls w)) (now w) (trace w ++ [EvRequest req])).

(** A [.then] callback runs only on fulfilment; a rejection travels on. *)
Definition fulfilled (p : AxiosErr + Response) : M Response :=
  match p with
  | inl err => throw (AxiosError err)
  | inr r => ret r
  end.

(** Line 97: [response.data.playlists.items[0].tracks.href] *)
Definition first_href (r : Response) : JsError + string :=
  match data r with
  | BPlaylists (p :: _) => inr (tracks_href p)
  | _ => inl TypeError
  end.

(** Lines 116-132: features are attached and one analysis request per
    feature object is issued, each with its [.catch]. *)
Fixpoint fanout (feats : list (option Features)) (sd : SongData)
    (promises : list (JsError + Settled))
  : M (SongData * list (JsError + Settled)) :=
  match feats with
  | [] => ret (sd, promises)
  | None :: _ => throw TypeError
  | Some song :: rest =>
      let* sd' := lift (set_features sd song) in
      let* p := Axios (request (Some (analysis_url song))) in
      fanout rest sd' (promises ++ [analysis_settle p])
  end.

(** Lines 159-166: one retry request per element of [errors]. *)
Fixpoint issue_retries (errors : list Settled) (promises : list Retried)
  : M (list Retried) :=
  match errors with
  | [] => ret promises
  | error :: rest =>
      let* p := Axios (request (settled_url error)) in
      issue_retries rest (promises ++ [retry_settle p])
  end.

(** What the retries settle to when the first of them is request number
    [n]: the array [retries] of line 168. *)
Fixpoint retried (n : nat) (errors : list Settled) : list Retried :=
  match errors with
  | [] => []
  | error :: rest =>
      retry_settle
        (axios_settle (net n (request (settled_url error)))
                      (request (settled_url error)))
      :: retried (S n) rest
  end.

(** Lines 147-180: the retry pass, run when [errors] is not empty. *)
Definition retry_pass (sd : SongData) (errors : list Settled) : M SongData :=
  let timeout := backoff errors in
  let* _ := sleep timeout in
  let* retries := issue_retries errors [] in
  let* merged := lift (merge_retries retries sd 0) in
  fun w => (inr (fst merged), emit (EvResidual (snd merged)) w).

(** Lines 88-108: the playlist of the genre, its track listing, and the
    loop that fills [songData] and [featureUrl]. *)
Definition stage_listing (genre : string) : M (string * SongData) :=
  let* p := Axios (playlistRequest genre) in
  let* response := fulfilled p in
  let* href := lift (first_href response) in
  let* p := Axios (request (Some href)) in
  let* response := fulfilled p in
  match data response with
  | BTracks items => lift (listing items featureUrl0 ∅)
  | _ => throw TypeError
  end.

Definition featuresRequest (featureUrl : string) : Request :=
  request (Some (slice_0_m1 featureUrl)).

(** Lines 110-132: the batched features request and the fan-out. *)
Definition stage_features (featureUrl : string) (sd : SongData)
  : M (SongData * list (JsError + Settled)) :=
  let* p := Axios (featuresRequest featureUrl) in
  let* response := fulfilled p in
  match data response with
  | BFeatures feats => fanout feats sd []
  | _ => throw TypeError
  end.

(** Lines 88-144: the chain up to the end of the loop over [songs]. *)
Definition chain (genre : string) : M (SongData * list Settled) :=
  let* listed := stage_listing genre in
  let* fanned := stage_features (fst listed) (snd listed) in
  let* songs := lift (Promise_all (snd fanned)) in
  lift (collect songs (fst fanned) []).

(** Lines 82-189.  A value that is not a string throws at once.  An error
    in the chain reaches the final [.catch], which logs and rejects; the
    retry pass is handed to [resolve] and so settles the result itself. *)
Definition getTop100AudioData (genre : JsValue) (w : World) : Outcome * World :=
  match genre with
  | VString g =>
      match chain g w with
      | (inl e, w1) => (Rejected e, emit (EvFatal e) w1)
      | (inr (sd, []), w1) => (Resolved sd, w1)
      | (inr (sd, errors), w1) =>
          match retry_pass sd errors w1 with
          | (inl e, w2) => (Rejected e, w2)
          | (inr sd', w2) => (Resolved sd', w2)
          end
      end
  | _ => (Threw GenreNotString, w)
  end.

End Pipeline.

(** ** The session: [constructor] and [authorize] *)

(** [Buffer.from(s).toString('base64')]: three bytes become four
    characters of the alphabet, the last group is padded with [=]. *)
Definition base64_alphabet : string :=
  "ABCDEFGHIJKLMNOPQRSTUVWXYZabcdefghijklmnopqrstuvwxyz0123456789+/".

Definition base64_char (n : N) : ascii :=
  match String.get (N.to_nat n) base64_alphabet with
  | Some c => c
  | None => "="%char
  end.

Fixpoint base64 (s : string) : string :=
  match s with
  | EmptyString => EmptyString
  | String a EmptyString =>
      let n := (N_of_ascii a * 65536)%N in
      String (base64_char (n / 262144)%N)
        (String (base64_char ((n / 4096) mod 64)%N) "==")
  | String a (String b EmptyString) =>
      let n := (N_of_ascii a * 65536 + N_of_ascii b * 256)%N in
      String (base64_char (n / 262144)%N)
        (String (base64_char ((n / 4096) mod 64)%N)
           (String (base64_char ((n / 64) mod 64)%N) "="))
  | String a (String b (String c rest)) =>
      let n := (N_of_ascii a * 65536 + N_of_ascii b * 256 + N_of_ascii c)%N in
      String (base64_char (n / 262144)%N)
        (String (base64_char ((n / 4096) mod 64)%N)
           (String (base64_char ((n / 64) mod 64)%N)
              (String (base64_char (n mod 64)%N) (base64 rest))))
  end.

(** The request of [authorize] (lines 24-34).  Its method is POST, its
    content type and [grant_type] parameter are constants. *)
Record TokenRequest : Type := mkTokenRequest {
  token_authorization : string;
  token_url : string
}.

(** The answer of the token endpoint: [status] and [data.access_token],
    which is undefined ([None]) when the body has no such member. *)
Record TokenResponse : Type := mkTokenResponse {
  token_status : Z;
  token_access_token : option string
}.

Inductive TokenResult : Type :=
  | TokenSilent
  | TokenAnswered (r : TokenResponse).

(** What [authorize] does to the outside: the request, and the
    [console.error(err)] of its [.catch], with [err.response]. *)
Inductive AuthEvent : Type :=
  | AuthRequest (r : TokenRequest)
  | AuthError (response : option TokenResponse).

Inductive AuthOutcome : Type :=
  | AuthResolved
  | AuthRejected (response : option TokenResponse).

(** The object: [this.accessToken], undefined ([None]) once a token answer
    without [access_token] has been stored. *)
Record Spotify : Type := mkSpotify {
  this_accessToken : option string
}.

(** Lines 13-15: the constructor. *)
Definition new_Spotify : Spotify := mkSpotify (Some "").

Definition tokenRequest (clientId clientSecret : string) : TokenRequest :=
  mkTokenRequest
    ("Basic " +:+ base64 (clientId +:+ ":" +:+ clientSecret))
    "https://accounts.spotify.com/api/token".

(** Lines 22-43. *)
Definition authorize (auth_net : TokenRequest -> TokenResult)
    (clientId clientSecret : string) (this : Spotify)
  : AuthOutcome * Spotify * list AuthEvent :=
  let req := tokenRequest clientId clientSecret in
  match auth_net req with
  | TokenSilent =>
      (AuthRejected None, this, [AuthRequest req; AuthError None])
  | TokenAnswered r =>
      if validateStatus (token_status r)
      then (AuthResolved, mkSpotify (token_access_token r), [AuthRequest req])
      else (AuthRejected (Some r), this, [AuthRequest req; AuthError (Some r)])
  end.

(** [`Bearer ${this.accessToken}`] reads the token as a string. *)
Definition token_text (this : Spotify) : string :=
  match this_accessToken this with
  | Some t => t
  | None => "undefined"
  end.

(** The method [getTop100AudioData] of the object [this]. *)
Definition method_getTop100AudioData (net : nat -> Request -> NetResult)
    (this : Spotify) (genre : JsValue) (w : World) : Outcome * World :=
  getTop100AudioData net (token_text this) genre w.

(** ** Vocabulary of the statements *)

(** A computation that only issues requests: the clock stands still and
    the trace grows by request events. *)
Definition only_requests {A : Type} (m : M A) : Prop :=
  forall w r w1,
    m w = (r, w1) ->
    now w1 = now w
    /\ exists reqs, trace w1 = trace w ++ map EvRequest reqs.

(** How a record of the result relates to the record it was before. *)
Definition analysis_from (rs : list Response) (k : string)
    (rec rec' : TrackRecord) : Prop :=
  name rec' = name rec
  /\ popularity rec' = popularity rec
  /\ features rec' = features rec
  /\ (analysis rec' = analysis rec
      \/ exists r, r ∈ rs /\ path_id r = k /\ analysis rec' = Some (data r)).

(** How a record after the fan-out relates to the record it was before. *)
Definition features_from (feats : list (option Features)) (k : string)
    (rec rec' : TrackRecord) : Prop :=
  name rec' = name rec
  /\ popularity rec' = popularity rec
  /\ analysis rec' = analysis rec
  /\ (features rec' = features rec
      \/ exists song, Some song ∈ feats /\ to_str (feat_id song) = k
                      /\ features rec' = Some song).

(** The world once the timer is set and the retries are issued. *)
Definition retry_world (accessToken : string) (errors : list Settled)
    (w : World) : World :=
  mkWorld (calls w + length errors)%nat (now w)
    (trace w ++ EvTimer CbUndefined (backoff errors)
             :: map (fun e => EvRequest (request accessToken (settled_url e)))
                    errors).

(** The number of retries that did not return 200. *)
Definition residual (retries : list Retried) : nat :=
  length (List.filter (fun x => negb (retried_ok x)) retries).

(** The key under which the loop over the listing stores a track. *)
Definition track_key (t : Track) : string := to_str (track_id t).

(** The record the loop over the listing creates for a track. *)
Definition listed_record (t : Track) : TrackRecord :=
  mkRecord (track_name t) (track_popularity t) None None.

(** The last track of a list stored under a key. *)
Fixpoint last_with_key (k : string) (tracks : list Track) : option Track :=
  match tracks with
  | [] => None
  | t :: rest =>
      match last_with_key k rest with
      | Some t' => Some t'
      | None => if String.eqb (track_key t) k then Some t else None
      end
  end.

(** The ids as the loop appends them: each followed by a comma. *)
Fixpoint with_commas (l : list string) : string :=
  match l with
  | [] => ""
  | x :: rest => x +:+ "," +:+ with_commas rest
  end.

(** Strings separated by commas. *)
Fixpoint join_commas (l : list string) : string :=
  match l with
  | [] => ""
  | x :: rest =>
      match rest with
      | [] => x
      | _ :: _ => x +:+ "," +:+ join_commas rest
      end
  end.

(** A computation whose events all satisfy [P]. *)
Definition traced (P : Event -> Prop) {A : Type} (m : M A) : Prop :=
  forall w r w1,
    m w = (r, w1) ->
    exists evs, trace w1 = trace w ++ evs /\ Forall P evs.

(** An event that is not a request, or a request with this header. *)
Definition carries (auth : string) (e : Event) : Prop :=
  match e with
  | EvRequest q => authorization q = auth
  | _ => True
  end.

(** The analysis request of a feature object. *)
Definition analysisRequest (accessToken : string) (song : Features) : Request :=
  mkRequest ("Bearer " +:+ accessToken) (Some (analysis_url song)).

(** The retry request of a failure. *)
Definition retryRequest (accessToken : string) (error : Settled) : Request :=
  mkRequest ("Bearer " +:+ accessToken) (settled_url error).

(** A string without the character [/]. *)
Fixpoint no_slash (s : string) : bool :=
  match s with
  | EmptyString => true
  | String c s' => negb (Ascii.eqb c "/") && no_slash s'
  end.

(** The number of [/] in a string. *)
Fixpoint count_slash (s : string) : nat :=
  match s with
  | EmptyString => O
  | String c s' => ((if Ascii.eqb c "/" then 1 else 0) + count_slash s')%nat
  end.

(** The decimal numeral of a list of digits, and its value. *)
Definition digit_char (d : nat) : ascii := ascii_of_nat (48 + d).

Fixpoint numeral (ds : list nat) : string :=
  match ds with
  | [] => EmptyString
  | d :: rest => String (digit_char d) (numeral rest)
  end.

Definition numeral_value (ds : list nat) : Z :=
  fold_left (fun acc d => 10 * acc + Z.of_nat d) ds 0.

(** An ASCII letter. *)
Definition is_letter (c : ascii) : bool :=
  let n := nat_of_ascii c in
  ((65 <=? n)%nat && (n <=? 90)%nat) || ((97 <=? n)%nat && (n <=? 122)%nat).

(** The [timeout] member the handler of the fan-out computes from an
    answer. *)
Definition retry_after_seconds (r : Response) : jsnum :=
  match retry_after r with
  | Some h => if String.eqb h "" then JNaN else parseInt h
  | None => JNaN
  end.

(** What the promise of the analysis request of [song] settles to when
    the request is answered with [r]. *)
Definition settle_answer (song : Features) (r : Response) : Settled :=
  if validateStatus (status r) then SResponse r
  else SFailure (mkFailure (status r) (Some (analysis_url song))
                   (retry_after_seconds r)).

(** The promises of the analysis requests of [songs] when the first of
    them is request number [n]. *)
Fixpoint settled_of (net : nat -> Request -> NetResult) (accessToken : string)
    (n : nat) (songs : list Features) : list (JsError + Settled) :=
  match songs with
  | [] => []
  | song :: rest =>
      analysis_settle
        (axios_settle (net n (analysisRequest accessToken song))
                      (analysisRequest accessToken song))
      :: settled_of net accessToken (S n) rest
  end.

(** A retried request returned 200: the retry of some failure, issued as
    request number [n] plus its index, was answered with [r], and the
    status of [r] is 200. *)
Definition retry_returned (net : nat -> Request -> NetResult)
    (accessToken : string) (n : nat) (errors : list Settled) (r : Response)
  : Prop :=
  exists i error,
    errors !! i = Some error
    /\ net (n + i)%nat (retryRequest accessToken error) = Responded r
    /\ status r = 200.

(** An analysis request of the fan-out returned 200, likewise. *)
Definition analysis_returned (net : nat -> Request -> NetResult)
    (accessToken : string) (n : nat) (feats : list (option Features))
    (r : Response) : Prop :=
  exists j song,
    feats !! j = Some (Some song)
    /\ net (n + j)%nat (analysisRequest accessToken song) = Responded r
    /\ status r = 200.



(** [songData[k]] is an object that takes a member: an own record, or a
    member of [Object.prototype]. *)
Definition found (sd : SongData) (k : string) : Prop :=
  is_Some (sd !! k) \/ inherited k = true.

(** An entry of [audio_features] that the fan-out passes: a feature
    object that names an own record or an inherited member. *)
Definition passes (sd : SongData) (o : option Features) : Prop :=
  exists song, o = Some song /\ found sd (to_str (feat_id song)).

(** An entry at which the fan-out stops: a null entry, or a feature
    object whose id names nothing, neither an own record nor anything on
    the prototype chain. *)
Definition stops (sd : SongData) (o : option Features) : Prop :=
  o = None
  \/ exists song,
      o = Some song
      /\ sd !! to_str (feat_id song) = None
      /\ on_prototype_chain (to_str (feat_id song)) = false.

(** The ids of a listing that become own properties. *)
Definition own_keys (tracks : list Track) : list string :=
  List.filter (fun k => negb (String.eqb k "__proto__"))
              (map track_key tracks).

(** ** Sample upstream behaviours *)

Module Sample.

Definition token : string := "tok".

Definition ok (path : string) (b : Body) : NetResult :=
  Responded (mkResponse 200 None path b).

Definition item (i : string) : TrackItem :=
  mkTrackItem (Some (mkTrack (Some i) (Some ("song " +:+ i)) (Some 50))).

Definition feat (i : string) : option Features :=
  Some (mkFeatures (Some i)
          ("https://api.spotify.com/v1/audio-analysis/" +:+ i) "features").

Definition href : string := "https://api.spotify.com/v1/playlists/P/tracks".

(** Three tracks; the features come back in another order; the analysis
    of [b] succeeds, the one of [a] is rate limited with [retry-after: 5],
    the one of [c] fails with a 500.  On retry [a] succeeds and [c] gets
    no answer. *)
Definition net_retry (n : nat) (_ : Request) : NetResult :=
  match n with
  | 0%nat => ok "/v1/browse/categories/rock/playlists" (BPlaylists [mkPlaylist href])
  | 1%nat => ok "/v1/playlists/P/tracks" (BTracks [item "a"; item "b"; item "c"])
  | 2%nat => ok "/v1/audio-features/" (BFeatures [feat "b"; feat "a"; feat "c"])
  | 3%nat => ok "/v1/audio-analysis/b" (BAnalysis "analysis of b")
  | 4%nat => Responded (mkResponse 429 (Some "5") "/v1/audio-analysis/a" BOther)
  | 5%nat => Responded (mkResponse 500 None "/v1/audio-analysis/c" BOther)
  | 6%nat => ok "/v1/audio-analysis/a" (BAnalysis "analysis of a")
  | _ => NoResponse
  end.

(** As [net_retry], but the analysis request of [a] gets no answer. *)
Definition net_offline (n : nat) (r : Request) : NetResult :=
  match n with
  | 4%nat => NoResponse
  | _ => net_retry n r
  end.

(** As [net_retry], but every analysis request is answered with a 200. *)
Definition net_clean (n : nat) (r : Request) : NetResult :=
  match n with
  | 4%nat => ok "/v1/audio-analysis/a" (BAnalysis "analysis of a")
  | 5%nat => ok "/v1/audio-analysis/c" (BAnalysis "analysis of c")
  | _ => net_retry n r
  end.

(** As [net_retry], but the features request is answered with a 401. *)
Definition net_features_401 (n : nat) (r : Request) : NetResult :=
  match n with
  | 2%nat => Responded (mkResponse 401 None "/v1/audio-features/" BOther)
  | _ => net_retry n r
  end.

(** As [net_retry], but the features hold an object for a track [z] that
    the listing did not contain. *)
Definition net_stray_feature (n : nat) (r : Request) : NetResult :=
  match n with
  | 2%nat => ok "/v1/audio-features/" (BFeatures [feat "b"; feat "z"; feat "c"])
  | _ => net_retry n r
  end.

(** The genre has no playlist. *)
Definition net_no_playlist (n : nat) (_ : Request) : NetResult :=
  match n with
  | 0%nat => ok "/v1/browse/categories/rock/playlists" (BPlaylists [])
  | _ => NoResponse
  end.

Definition rate_limited (secs : jsnum) : Settled :=
  SFailure (mkFailure 429 (Some "https://api.spotify.com/v1/audio-analysis/a") secs).

Definition server_error (u : string) : Settled :=
  SFailure (mkFailure 500 (Some u) JNaN).

(** A listing of [n] tracks with distinct ids. *)
Fixpoint many_items (n : nat) : list TrackItem :=
  match n with
  | O => []
  | S m => item (String (ascii_of_nat (33 + m)) "") :: many_items m
  end.

(** A listing entry whose track has neither a name nor a popularity. *)
Definition nameless : TrackItem :=
  mkTrackItem (Some (mkTrack (Some "x") None None)).

(** The result set after the listing of [net_retry]. *)
Definition listed : SongData :=
  list_to_map [("a", mkRecord (Some "song a") (Some 50) None None);
               ("b", mkRecord (Some "song b") (Some 50) None None);
               ("c", mkRecord (Some "song c") (Some 50) None None)].

Definition listed_url : string :=
  "https://api.spotify.com/v1/audio-features/?ids=a,b,c,".

(** The world after the two requests of the listing stage. *)
Definition listed_world : World :=
  mkWorld 2 0
    [EvRequest (mkRequest "Bearer tok"
       (Some "https://api.spotify.com/v1/browse/categories/rock/playlists"));
     EvRequest (mkRequest "Bearer tok" (Some href))].

(** The chain under [net_retry]: the result set and the failures at the
    end of the loop over [songs], and the world at that point. *)
Definition chain_result : (JsError + SongData * list Settled) * World :=
  chain net_retry token "rock" world0.

Definition chain_sd : SongData :=
  match fst chain_result with
  | inr (sd, _) => sd
  | inl _ => ∅
  end.

Definition chain_errors : list Settled :=
  match fst chain_result with
  | inr (_, errors) => errors
  | inl _ => []
  end.

Definition chain_world : World := snd chain_result.

(** The chain under [net_clean]. *)
Definition clean_result : (JsError + SongData * list Settled) * World :=
  chain net_clean token "rock" world0.

Definition clean_sd : SongData :=
  match fst clean_result with
  | inr (sd, _) => sd
  | inl _ => ∅
  end.

(** Settled analysis requests in an order that is not the order of the
    listing: [c] answered, one failure, [a] answered. *)
Definition answer (i : string) : Response :=
  mkResponse 200 None ("/v1/audio-analysis/" +:+ i)
    (BAnalysis ("analysis of " +:+ i)).

Definition songs : list Settled :=
  [SResponse (answer "c"); server_error "u"; SResponse (answer "a")].

Definition collected : SongData * list Settled :=
  match collect songs listed [] with
  | inr x => x
  | inl _ => (∅, [])
  end.

(** The result set after a listing in which the id [a] occurs twice. *)
Definition listed_twice : SongData :=
  list_to_map [("a", mkRecord (Some "second") (Some 2) None None);
               ("b", mkRecord (Some "song b") (Some 50) None None)].

(** The listing answer holds an entry whose track is null. *)
Definition net_null_track (n : nat) (r : Request) : NetResult :=
  match n with
  | 1%nat => ok "/v1/playlists/P/tracks" (BTracks [item "a"; mkTrackItem None])
  | _ => net_retry n r
  end.

(** The features answer holds a null entry. *)
Definition net_null_feature (n : nat) (r : Request) : NetResult :=
  match n with
  | 2%nat => ok "/v1/audio-features/" (BFeatures [feat "a"; None; feat "c"])
  | _ => net_retry n r
  end.


(** The world after the features request of [net_retry]. *)
Definition featured_world : World :=
  mkWorld 3 0
    (trace listed_world
     ++ [EvRequest (mkRequest "Bearer tok"
           (Some "https://api.spotify.com/v1/audio-features/?ids=a,b,c"))]).

(** The fan-out under [net_offline]. *)
Definition offline_fanout
  : (JsError + SongData * list (JsError + Settled)) * World :=
  fanout net_offline token [feat "b"; feat "a"; feat "c"] listed []
    featured_world.

Definition offline_sd : SongData :=
  match fst offline_fanout with
  | inr (sd, _) => sd
  | inl _ => ∅
  end.

Definition offline_promises : list (JsError + Settled) :=
  match fst offline_fanout with
  | inr (_, ps) => ps
  | inl _ => []
  end.

(** The fan-out under [net_retry]. *)
Definition retry_fanout
  : (JsError + SongData * list (JsError + Settled)) * World :=
  fanout net_retry token [feat "b"; feat "a"; feat "c"] listed []
    featured_world.

Definition retry_promises : list (JsError + Settled) :=
  match fst retry_fanout with
  | inr (_, ps) => ps
  | inl _ => []
  end.

(** As [net_retry], but the features hold an object whose id is
    [constructor], which the listing did not contain, and every analysis
    request is answered with a 200. *)
Definition net_inherited_id (n : nat) (r : Request) : NetResult :=
  match n with
  | 2%nat => ok "/v1/audio-features/"
               (BFeatures [feat "b"; feat "constructor"; feat "c"])
  | 4%nat => ok "/v1/audio-analysis/constructor" (BAnalysis "analysis")
  | 5%nat => ok "/v1/audio-analysis/c" (BAnalysis "analysis of c")
  | _ => net_retry n r
  end.



(** The feature object of [net_inherited_id] that names no record. *)
Definition constructor_features : Features :=
  mkFeatures (Some "constructor")
    "https://api.spotify.com/v1/audio-analysis/constructor" "features".


(** The listing answer holds 101 entries. *)
Definition net_long (n : nat) (r : Request) : NetResult :=
  match n with
  | 1%nat => ok "/v1/playlists/P/tracks" (BTracks (many_items 101))
  | _ => net_retry n r
  end.

(** The listing answer holds one entry, without name and popularity. *)
Definition net_nameless (n : nat) (r : Request) : NetResult :=
  match n with
  | 1%nat => ok "/v1/playlists/P/tracks" (BTracks [nameless])
  | _ => net_retry n r
  end.

End Sample.

(** * Properties *)

(** ** The back-off delay *)

Lemma backoff_skip (pre rest : list Settled) :
  (forall x, x ∈ pre -> settled_status x <> 429) ->
  backoff (pre ++ rest) = backoff rest.
Proof.
  induction pre as [|x pre IH]; intros Hpre; simpl; [reflexivity|].
  destruct (Z.eqb_spec (settled_status x) 429) as [E|_].
  - exfalso. apply (Hpre x); [left | exact E].
  - apply IH. intros y Hy. apply Hpre. right. exact Hy.
Qed.

Lemma backoff_no_429 (errors : list Settled) :
  (forall x, x ∈ errors -> settled_status x <> 429) ->
  backoff errors = JNum 0.
Proof.
  intros H. rewrite <- (app_nil_r errors). rewrite backoff_skip; auto.
Qed.

Lemma backoff_first_429 (pre post : list Settled) (e : Settled) :
  (forall x, x ∈ pre -> settled_status x <> 429) ->
  settled_status e = 429 ->
  backoff (pre ++ e :: post) =
    match settled_timeout e with
    | JNum t => JNum ((t + 2) * 1000)
    | JNaN => JNaN
    end.
Proof.
  intros Hpre He. rewrite backoff_skip by exact Hpre.
  simpl. rewrite He. simpl. destruct (settled_timeout e); reflexivity.
Qed.

(** C3, as stated, fails: a 429 whose [retry-after] header is absent is
    recorded with the unknown marker NaN, and the delay computed from it is
    NaN, not the 2000 ms of a 2-second delay. *)
Lemma C3_unknown_marker_is_not_two_seconds :
  analysis_catch
    (mkAxiosErr (Some (mkResponse 429 None "/v1/audio-analysis/a" BOther))
                (Some "https://api.spotify.com/v1/audio-analysis/a"))
    = inr (Sample.rate_limited JNaN)
  /\ backoff [Sample.rate_limited JNaN] = JNaN
  /\ backoff [Sample.rate_limited JNaN] <> JNum 2000.
Proof.
  split; [reflexivity|]. split; [reflexivity|]. discriminate.
Qed.

(** C3 (amended): the delay, in milliseconds, is [(t + 2) * 1000] for the
    first failure with status 429 when its [timeout] is a number [t] and
    that product is an integer a double holds exactly, NaN when its
    [timeout] is the unknown marker NaN, and 0 when no failure has status
    429.  With one 429 carrying 5 among two 500s, in any position, the
    delay is 7000 ms. *)
Theorem C3_backoff_delay (errors : list Settled) :
  (forall pre e post,
      errors = pre ++ e :: post ->
      (forall x, x ∈ pre -> settled_status x <> 429) ->
      settled_status e = 429 ->
      (forall t,
          settled_timeout e = JNum t ->
          exact ((t + 2) * 1000) ->
          backoff errors = JNum ((t + 2) * 1000))
      /\ (settled_timeout e = JNaN -> backoff errors = JNaN))
  /\ ((forall x, x ∈ errors -> settled_status x <> 429) ->
      backoff errors = JNum 0)
  /\ (forall u u1 u2 t1 t2,
        let limited := SFailure (mkFailure 429 u (JNum 5)) in
        let e1 := SFailure (mkFailure 500 u1 t1) in
        let e2 := SFailure (mkFailure 500 u2 t2) in
        backoff [limited; e1; e2] = JNum 7000
        /\ backoff [e1; limited; e2] = JNum 7000
        /\ backoff [e1; e2; limited] = JNum 7000).
Proof.
  split; [|split].
  - intros pre e post -> Hpre He.
    rewrite (backoff_first_429 pre post e Hpre He).
    split.
    + intros t -> _. reflexivity.
    + intros ->. reflexivity.
  - apply backoff_no_429.
  - intros u u1 u2 t1 t2. repeat split; reflexivity.
Qed.

Lemma C3_backoff_delay_witness :
  backoff [Sample.server_error "u"; Sample.rate_limited (JNum 5)] = JNum 7000
  /\ backoff [Sample.server_error "u"] = JNum 0.
Proof.
  pose proof (C3_backoff_delay
                [Sample.server_error "u"; Sample.rate_limited (JNum 5)])
    as [H1 _].
  pose proof (C3_backoff_delay [Sample.server_error "u"]) as [_ [H2 _]].
  split.
  - destruct (H1 [Sample.server_error "u"] (Sample.rate_limited (JNum 5)) [])
      as [Hnum _].
    + reflexivity.
    + intros x Hx. apply list_elem_of_singleton in Hx. subst x.
      simpl. discriminate.
    + reflexivity.
    + apply (Hnum 5).
      * reflexivity.
      * vm_compute. discriminate.
  - apply H2. intros x Hx. apply list_elem_of_singleton in Hx. subst x.
    simpl. discriminate.
Defined.

(** ** The track listing *)

Lemma insert_size_le (k : string) (v : TrackRecord) (sd : SongData) :
  (size (<[k := v]> sd) <= S (size sd))%nat.
Proof.
  rewrite map_size_insert. destruct (sd !! k); simpl; lia.
Qed.

Lemma set_record_size_le (k : string) (v : TrackRecord) (sd : SongData) :
  (size (set_record sd k v) <= S (size sd))%nat.
Proof.
  unfold set_record. destruct (String.eqb k "__proto__"); [lia|].
  apply insert_size_le.
Qed.

Lemma set_record_lookup (sd : SongData) (k j : string) (v : TrackRecord) :
  set_record sd k v !! j
  = if String.eqb k "__proto__" then sd !! j
    else if decide (k = j) then Some v else sd !! j.
Proof.
  unfold set_record. destruct (String.eqb k "__proto__"); [reflexivity|].
  apply lookup_insert.
Qed.

Lemma listing_size (items : list TrackItem) :
  forall fu sd fu' sd',
    listing items fu sd = inr (fu', sd') ->
    (size sd' <= size sd + length items)%nat.
Proof.
  induction items as [|it items IH]; intros fu sd fu' sd' H; simpl in H.
  - inversion H; subst. simpl. lia.
  - destruct (item_track it) as [t|]; [|discriminate].
    apply IH in H. pose proof (set_record_size_le
      (to_str (track_id t))
      (mkRecord (track_name t) (track_popularity t) None None) sd).
    simpl. lia.
Qed.

Lemma listing_keeps (items : list TrackItem) :
  forall fu sd fu' sd' k,
    listing items fu sd = inr (fu', sd') ->
    is_Some (sd !! k) -> is_Some (sd' !! k).
Proof.
  induction items as [|it items IH]; intros fu sd fu' sd' k H Hk; simpl in H.
  - inversion H; subst. exact Hk.
  - destruct (item_track it) as [t|]; [|discriminate].
    eapply IH; [exact H|]. rewrite set_record_lookup.
    destruct (String.eqb (to_str (track_id t)) "__proto__"); [exact Hk|].
    case_decide; [eauto|exact Hk].
Qed.

Lemma listing_covers (items : list TrackItem) :
  forall fu sd fu' sd' t,
    listing items fu sd = inr (fu', sd') ->
    mkTrackItem (Some t) ∈ items ->
    to_str (track_id t) <> "__proto__" ->
    is_Some (sd' !! to_str (track_id t)).
Proof.
  induction items as [|it items IH]; intros fu sd fu' sd' t H Hin Hne;
    simpl in H.
  - inversion Hin.
  - destruct (item_track it) as [t0|] eqn:Et; [|discriminate].
    apply elem_of_cons in Hin as [Hhd|Htl].
    + subst it. simpl in Et. inversion Et; subst t0.
      eapply listing_keeps; [exact H|]. rewrite set_record_lookup.
      apply String.eqb_neq in Hne. rewrite Hne.
      rewrite decide_True by reflexivity. eauto.
    + eapply IH; eassumption.
Qed.

Lemma listing_provenance (items : list TrackItem) :
  forall fu sd fu' sd' k rec,
    listing items fu sd = inr (fu', sd') ->
    sd' !! k = Some rec ->
    sd !! k = Some rec
    \/ exists t, mkTrackItem (Some t) ∈ items
                 /\ k = to_str (track_id t)
                 /\ rec = mkRecord (track_name t) (track_popularity t) None None.
Proof.
  induction items as [|it items IH]; intros fu sd fu' sd' k rec H Hk;
    simpl in H.
  - inversion H; subst. left. exact Hk.
  - destruct it as [[t|]]; simpl in H; [|discriminate].
    destruct (IH _ _ _ _ _ _ H Hk) as [Hold|(t' & Hin & -> & ->)].
    + rewrite set_record_lookup in Hold.
      destruct (String.eqb (to_str (track_id t)) "__proto__");
        [left; exact Hold|].
      case_decide as Hd.
      * inversion Hold; subst. right. exists t. split; [left|auto].
      * left. exact Hold.
    + right. exists t'. split; [right; exact Hin|auto].
Qed.

Section Stages.

Variable net : nat -> Request -> NetResult.
Variable accessToken : string.

(** What a successful listing stage says about the upstream answers. *)
Lemma stage_listing_inv (genre fu : string) (sd : SongData) (w w1 : World) :
  stage_listing net accessToken genre w = (inr (fu, sd), w1) ->
  exists r0 p ps r1 items,
    net (calls w) (playlistRequest accessToken genre) = Responded r0
    /\ validateStatus (status r0) = true
    /\ data r0 = BPlaylists (p :: ps)
    /\ net (S (calls w)) (request accessToken (Some (tracks_href p)))
       = Responded r1
    /\ validateStatus (status r1) = true
    /\ data r1 = BTracks items
    /\ listing items featureUrl0 ∅ = inr (fu, sd)
    /\ w1 = mkWorld (S (S (calls w))) (now w)
              (trace w ++ [EvRequest (playlistRequest accessToken genre);
                           EvRequest (request accessToken
                                        (Some (tracks_href p)))]).
Proof.
  unfold stage_listing, bind, Axios, axios_settle. simpl.
  destruct (net (calls w) (playlistRequest accessToken genre)) as [|r0] eqn:E0;
    simpl; [discriminate|].
  destruct (validateStatus (status r0)) eqn:V0; simpl; [|discriminate].
  unfold first_href. destruct (data r0) as [[|p ps]| | | |] eqn:D0; simpl;
    try discriminate.
  destruct (net (S (calls w)) (request accessToken (Some (tracks_href p))))
    as [|r1] eqn:E1; simpl; [discriminate|].
  destruct (validateStatus (status r1)) eqn:V1; simpl; [|discriminate].
  destruct (data r1) as [|items| | |] eqn:D1; simpl; try discriminate.
  destruct (listing items featureUrl0 ∅) as [e|[fu' sd']] eqn:L; simpl;
    [discriminate|].
  intros H. inversion H; subst. rewrite <- app_assoc. simpl.
  exists r0, p, ps, r1, items. repeat split; auto.
Qed.

End Stages.

(** C9, as stated, fails: for the genre [rock], a listing answer of 101
    entries yields 101 records, and an entry without name and popularity
    yields a record whose [name] and [popularity] are null. *)
Lemma C9_no_cap_and_no_null_check :
  (exists fu sd w1,
      stage_listing Sample.net_long Sample.token "rock" world0
        = (inr (fu, sd), w1)
      /\ size sd = 101%nat)
  /\ (exists fu sd w1 rec,
         stage_listing Sample.net_nameless Sample.token "rock" world0
           = (inr (fu, sd), w1)
         /\ sd !! "x" = Some rec
         /\ name rec = None /\ popularity rec = None).
Proof.
  split.
  - destruct (stage_listing Sample.net_long Sample.token "rock" world0)
      as [[e|[fu sd]] w1] eqn:L; [vm_compute in L; discriminate|].
    exists fu, sd, w1. split; [reflexivity|].
    assert (H : match stage_listing Sample.net_long Sample.token "rock" world0
                with
                | (inr (_, m), _) => size m
                | (inl _, _) => 0%nat
                end = 101%nat) by (vm_compute; reflexivity).
    rewrite L in H. exact H.
  - eexists _, _, _, _. split; [reflexivity|]. split; [reflexivity|].
    split; reflexivity.
Qed.

Lemma listing_no_proto (items : list TrackItem) :
  forall fu sd fu' sd',
    listing items fu sd = inr (fu', sd') ->
    sd !! "__proto__" = None -> sd' !! "__proto__" = None.
Proof.
  induction items as [|it items IH]; intros fu sd fu' sd' H Hn; simpl in H.
  - inversion H; subst. exact Hn.
  - destruct (item_track it) as [t|]; [|discriminate].
    eapply IH; [exact H|]. rewrite set_record_lookup.
    destruct (String.eqb_spec (to_str (track_id t)) "__proto__") as [E|E];
      [exact Hn|].
    rewrite decide_False by exact E. exact Hn.
Qed.

(** C9 (amended): when the listing stage succeeds, the result set holds at
    most one record per entry of the upstream listing answer (so at most
    100 when that answer holds at most 100 entries); it holds one for
    every entry whose id is not [__proto__], and none under [__proto__];
    and each record carries the id, name and popularity of an entry as
    upstream sent them, null or not, and neither features nor analysis. *)
Theorem C9_listing_records
    (net : nat -> Request -> NetResult) (accessToken genre fu : string)
    (sd : SongData) (w w1 : World) :
  stage_listing net accessToken genre w = (inr (fu, sd), w1) ->
  exists r0 p ps r1 items,
    net (calls w) (playlistRequest accessToken genre) = Responded r0
    /\ data r0 = BPlaylists (p :: ps)
    /\ net (S (calls w)) (request accessToken (Some (tracks_href p)))
       = Responded r1
    /\ data r1 = BTracks items
    /\ (size sd <= length items)%nat
    /\ ((length items <= 100)%nat -> (size sd <= 100)%nat)
    /\ (forall t, mkTrackItem (Some t) ∈ items ->
                  to_str (track_id t) <> "__proto__" ->
                  is_Some (sd !! to_str (track_id t)))
    /\ sd !! "__proto__" = None
    /\ (forall k rec,
           sd !! k = Some rec ->
           exists t, mkTrackItem (Some t) ∈ items
                     /\ k = to_str (track_id t)
                     /\ name rec = track_name t
                     /\ popularity rec = track_popularity t
                     /\ features rec = None
                     /\ analysis rec = None).
Proof.
  intros H.
  destruct (stage_listing_inv _ _ _ _ _ _ _ H)
    as (r0 & p & ps & r1 & items & E0 & _ & D0 & E1 & _ & D1 & L & _).
  exists r0, p, ps, r1, items.
  pose proof (listing_size _ _ _ _ _ L) as Hsize.
  rewrite map_size_empty in Hsize. simpl in Hsize.
  do 4 (split; [assumption|]).
  split; [lia|]. split; [lia|]. split; [|split].
  - intros t Ht Hne. eapply listing_covers; eassumption.
  - eapply listing_no_proto; [exact L|]. apply lookup_empty.
  - intros k rec Hk.
    destruct (listing_provenance _ _ _ _ _ _ _ L Hk)
      as [Hempty|(t & Hin & -> & ->)].
    + rewrite lookup_empty in Hempty. discriminate.
    + exists t. split; [exact Hin|]. repeat split; reflexivity.
Qed.

Lemma C9_listing_records_witness :
  exists r0 p ps r1 items,
    Sample.net_retry 0 (playlistRequest Sample.token "rock") = Responded r0
    /\ data r0 = BPlaylists (p :: ps)
    /\ Sample.net_retry 1 (request Sample.token (Some (tracks_href p)))
       = Responded r1
    /\ data r1 = BTracks items
    /\ (size Sample.listed <= length items)%nat.
Proof.
  destruct (C9_listing_records Sample.net_retry Sample.token "rock"
              Sample.listed_url Sample.listed world0 Sample.listed_world)
    as (r0 & p & ps & r1 & items & H0 & D0 & H1 & D1 & Hsz & _).
  - vm_compute. reflexivity.
  - exists r0, p, ps, r1, items. auto.
Defined.

(** ** Traces *)

Lemma only_requests_ret {A : Type} (a : A) : only_requests (ret a).
Proof.
  intros w r w1 H. inversion H; subst. split; [reflexivity|].
  exists []. simpl. rewrite app_nil_r. reflexivity.
Qed.

Lemma only_requests_throw {A : Type} (e : JsError) :
  only_requests (throw e : M A).
Proof.
  intros w r w1 H. inversion H; subst. split; [reflexivity|].
  exists []. simpl. rewrite app_nil_r. reflexivity.
Qed.

Lemma only_requests_lift {A : Type} (x : JsError + A) : only_requests (lift x).
Proof.
  destruct x; [apply only_requests_throw | apply only_requests_ret].
Qed.

Lemma only_requests_bind {A B : Type} (m : M A) (k : A -> M B) :
  only_requests m -> (forall a, only_requests (k a)) ->
  only_requests (bind m k).
Proof.
  intros Hm Hk w r w1. unfold bind.
  destruct (m w) as [[e|a] w0] eqn:E; intros H.
  - inversion H; subst. exact (Hm _ _ _ E).
  - destruct (Hm _ _ _ E) as [N0 [q0 T0]].
    destruct (Hk a _ _ _ H) as [N1 [q1 T1]].
    split; [congruence|]. exists (q0 ++ q1).
    rewrite T1, T0, map_app, app_assoc. reflexivity.
Qed.

Lemma bind_assoc {A B C : Type} (m : M A) (f : A -> M B) (g : B -> M C)
    (w : World) :
  bind (bind m f) g w = bind m (fun x => bind (f x) g) w.
Proof.
  unfold bind. destruct (m w) as [[e|a] w0]; reflexivity.
Qed.

Create HintDb trace.

#[local] Hint Resolve only_requests_ret only_requests_throw only_requests_lift
  : trace.

Section Traces.

Variable net : nat -> Request -> NetResult.
Variable accessToken : string.

Lemma only_requests_Axios (req : Request) :
  only_requests (Axios net req).
Proof.
  intros w r w1 H. unfold Axios in H. inversion H; subst. simpl.
  split; [reflexivity|]. exists [req]. reflexivity.
Qed.

Lemma only_requests_fulfilled (p : AxiosErr + Response) :
  only_requests (fulfilled p).
Proof.
  destruct p; simpl; auto with trace.
Qed.

Lemma only_requests_fanout (feats : list (option Features)) :
  forall sd promises, only_requests (fanout net accessToken feats sd promises).
Proof.
  induction feats as [|[song|] feats IH]; intros sd promises; simpl;
    auto with trace.
  apply only_requests_bind; [auto with trace|]. intros sd'.
  apply only_requests_bind; [apply only_requests_Axios|]. intros p.
  apply IH.
Qed.

Lemma only_requests_stage_listing (genre : string) :
  only_requests (stage_listing net accessToken genre).
Proof.
  unfold stage_listing.
  apply only_requests_bind; [apply only_requests_Axios|]. intros p.
  apply only_requests_bind; [apply only_requests_fulfilled|]. intros r.
  apply only_requests_bind; [auto with trace|]. intros h.
  apply only_requests_bind; [apply only_requests_Axios|]. intros p'.
  apply only_requests_bind; [apply only_requests_fulfilled|]. intros r'.
  destruct (data r'); auto with trace.
Qed.

Lemma only_requests_stage_features (fu : string) (sd : SongData) :
  only_requests (stage_features net accessToken fu sd).
Proof.
  unfold stage_features.
  apply only_requests_bind; [apply only_requests_Axios|]. intros p.
  apply only_requests_bind; [apply only_requests_fulfilled|]. intros r.
  destruct (data r); auto with trace. apply only_requests_fanout.
Qed.

Lemma only_requests_chain (genre : string) :
  only_requests (chain net accessToken genre).
Proof.
  unfold chain.
  apply only_requests_bind; [apply only_requests_stage_listing|]. intros l.
  apply only_requests_bind; [apply only_requests_stage_features|]. intros f.
  apply only_requests_bind; auto with trace.
Qed.

Lemma Axios_first {A : Type} (req : Request) (k : AxiosErr + Response -> M A) :
  (forall p, only_requests (k p)) ->
  forall w, exists reqs,
    trace (snd (bind (Axios net req) k w))
    = trace w ++ EvRequest req :: map EvRequest reqs.
Proof.
  intros Hk w. unfold bind, Axios.
  destruct (k (axios_settle (net (calls w) req) req)
              (mkWorld (S (calls w)) (now w) (trace w ++ [EvRequest req])))
    as [r w1] eqn:E.
  destruct (Hk _ _ _ _ E) as [_ [reqs T]]. simpl in T. simpl.
  exists reqs. rewrite T, <- app_assoc. reflexivity.
Qed.

(** The first event of the chain is the playlist request. *)
Lemma chain_first_request (genre : string) (w : World) :
  exists reqs,
    trace (snd (chain net accessToken genre w))
    = trace w ++ EvRequest (playlistRequest accessToken genre)
                 :: map EvRequest reqs.
Proof.
  unfold chain, stage_listing. rewrite bind_assoc.
  apply Axios_first. intros p.
  apply only_requests_bind.
  - apply only_requests_bind; [apply only_requests_fulfilled|]. intros r.
    apply only_requests_bind; [auto with trace|]. intros h.
    apply only_requests_bind; [apply only_requests_Axios|]. intros p'.
    apply only_requests_bind; [apply only_requests_fulfilled|]. intros r'.
    destruct (data r'); auto with trace.
  - intros l.
    apply only_requests_bind; [apply only_requests_stage_features|].
    intros f. apply only_requests_bind; auto with trace.
Qed.

(** The retries: one request per element of [errors], in order. *)
Lemma issue_retries_run (errors : list Settled) :
  forall promises w,
    issue_retries net accessToken errors promises w
    = (inr (promises ++ retried net accessToken (calls w) errors),
       mkWorld (calls w + length errors)%nat (now w)
         (trace w ++ map (fun e => EvRequest (request accessToken (settled_url e)))
                         errors)).
Proof.
  induction errors as [|e errors IH]; intros promises w; simpl.
  - unfold ret. rewrite !app_nil_r, Nat.add_0_r. destruct w; reflexivity.
  - unfold bind, Axios. rewrite IH. simpl.
    rewrite <- !app_assoc. simpl. rewrite Nat.add_succ_r. reflexivity.
Qed.

End Traces.

(** ** Attaching analyses *)

Lemma set_analysis_inv (sd sd' : SongData) (r : Response) :
  set_analysis sd r = inr sd' ->
  (exists rec,
      sd !! path_id r = Some rec
      /\ sd' = <[path_id r := mkRecord (name rec) (popularity rec)
                                 (features rec) (Some (data r))]> sd)
  \/ (sd !! path_id r = None /\ inherited (path_id r) = true /\ sd' = sd).
Proof.
  unfold set_analysis. destruct (sd !! path_id r) as [rec|].
  - intros H. inversion H; subst. left. exists rec. auto.
  - destruct (inherited (path_id r)); [|discriminate].
    intros H. inversion H; subst. right. auto.
Qed.

Lemma set_analysis_own (sd : SongData) (r : Response) (rec : TrackRecord) :
  sd !! path_id r = Some rec ->
  set_analysis sd r
  = inr (<[path_id r := mkRecord (name rec) (popularity rec) (features rec)
                          (Some (data r))]> sd).
Proof.
  intros H. unfold set_analysis. rewrite H. reflexivity.
Qed.

Lemma set_analysis_total (sd : SongData) (r : Response) :
  is_Some (sd !! path_id r) -> exists sd', set_analysis sd r = inr sd'.
Proof.
  intros [rec H]. rewrite (set_analysis_own _ _ _ H). eauto.
Qed.

Lemma set_analysis_error (sd : SongData) (r : Response) (e : JsError) :
  set_analysis sd r = inl e -> e = TypeError /\ sd !! path_id r = None.
Proof.
  unfold set_analysis. destruct (sd !! path_id r); [discriminate|].
  destruct (inherited (path_id r)); [discriminate|].
  intros H. inversion H. auto.
Qed.

Lemma set_analysis_stray (sd : SongData) (r : Response) :
  sd !! path_id r = None -> inherited (path_id r) = false ->
  set_analysis sd r = inl TypeError.
Proof.
  intros H Hi. unfold set_analysis. rewrite H, Hi. reflexivity.
Qed.

Lemma set_analysis_dom (sd sd' : SongData) (r : Response) (k : string) :
  set_analysis sd r = inr sd' ->
  (is_Some (sd' !! k) <-> is_Some (sd !! k)).
Proof.
  intros H.
  destruct (set_analysis_inv _ _ _ H) as [(rec & Hrec & ->)|(_ & _ & ->)];
    [|reflexivity].
  rewrite lookup_insert_is_Some'. split; [|auto].
  intros [<-|Hk]; [eauto|exact Hk].
Qed.

Lemma attach_all_dom (rs : list Response) :
  forall sd sd' k,
    attach_all rs sd = inr sd' ->
    (is_Some (sd' !! k) <-> is_Some (sd !! k)).
Proof.
  induction rs as [|r rs IH]; intros sd sd' k H; simpl in H.
  - inversion H; subst. reflexivity.
  - destruct (set_analysis sd r) as [e|sd1] eqn:E; [discriminate|].
    rewrite (IH _ _ _ H). eapply set_analysis_dom; eassumption.
Qed.

Lemma analysis_from_refl (rs : list Response) (k : string) (rec : TrackRecord) :
  analysis_from rs k rec rec.
Proof.
  unfold analysis_from. do 3 (split; [reflexivity|]). left. reflexivity.
Qed.

Lemma analysis_from_cons (r0 : Response) (rs : list Response) (k : string)
    (rec rec' : TrackRecord) :
  analysis_from rs k rec rec' -> analysis_from (r0 :: rs) k rec rec'.
Proof.
  intros (N & P & F & A). do 3 (split; [assumption|]).
  destruct A as [A|(r' & Hin & Hp & A)]; [left; exact A|].
  right. exists r'. split; [right; exact Hin|auto].
Qed.

Lemma attach_all_provenance (rs : list Response) :
  forall sd sd' k rec',
    attach_all rs sd = inr sd' ->
    sd' !! k = Some rec' ->
    exists rec, sd !! k = Some rec /\ analysis_from rs k rec rec'.
Proof.
  induction rs as [|r rs IH]; intros sd sd' k rec' H Hk; simpl in H.
  - inversion H; subst. exists rec'. split; [exact Hk|].
    apply analysis_from_refl.
  - destruct (set_analysis sd r) as [e|sd1] eqn:E; [discriminate|].
    destruct (IH _ _ _ _ H Hk) as (rec1 & H1 & Hfrom).
    destruct (set_analysis_inv _ _ _ E) as [(rec0 & H0 & ->)|(_ & _ & ->)].
    + destruct Hfrom as (N & P & F & A).
      apply lookup_insert_Some in H1 as [[<- <-]|[Hne H1]].
      * exists rec0. split; [exact H0|]. simpl in *.
        do 3 (split; [assumption|]).
        right. destruct A as [A|(r' & Hin & Hp & A)].
        -- exists r. split; [left|auto].
        -- exists r'. split; [right; exact Hin|auto].
      * exists rec1. split; [exact H1|].
        apply analysis_from_cons. unfold analysis_from. auto.
    + exists rec1. split; [exact H1|]. apply analysis_from_cons. exact Hfrom.
Qed.

Lemma attach_all_hit (rs : list Response) :
  forall sd sd' r,
    attach_all rs sd = inr sd' ->
    r ∈ rs ->
    is_Some (sd !! path_id r) ->
    exists rec' r',
      sd' !! path_id r = Some rec'
      /\ r' ∈ rs /\ path_id r' = path_id r
      /\ analysis rec' = Some (data r').
Proof.
  induction rs as [|r0 rs IH]; intros sd sd' r H Hin Hown; simpl in H.
  - inversion Hin.
  - destruct (set_analysis sd r0) as [e|sd1] eqn:E; [discriminate|].
    apply elem_of_cons in Hin as [->|Hin].
    + destruct Hown as [rec0 H0].
      rewrite (set_analysis_own _ _ _ H0) in E. inversion E; subst sd1.
      assert (Hs : is_Some (sd' !! path_id r0)).
      { apply (attach_all_dom _ _ _ _ H). rewrite lookup_insert_eq. eauto. }
      destruct Hs as [rec' Hrec'].
      destruct (attach_all_provenance _ _ _ _ _ H Hrec')
        as (rec1 & H1 & _ & _ & _ & A).
      rewrite lookup_insert_eq in H1. inversion H1; subst rec1. simpl in A.
      destruct A as [A|(r' & Hin & Hp & A)].
      * exists rec', r0. split; [exact Hrec'|]. split; [left|auto].
      * exists rec', r'. split; [exact Hrec'|]. split; [right; exact Hin|auto].
    + destruct (IH _ _ _ H Hin) as (rec' & r' & Hk & Hin' & Hp & A).
      { apply (set_analysis_dom _ _ _ _ E). exact Hown. }
      exists rec', r'. split; [exact Hk|]. split; [right; exact Hin'|auto].
Qed.

Lemma attach_all_total (rs : list Response) :
  forall sd,
    (forall r, r ∈ rs -> is_Some (sd !! path_id r)) ->
    exists sd', attach_all rs sd = inr sd'.
Proof.
  induction rs as [|r rs IH]; intros sd Hall; simpl.
  - eauto.
  - destruct (set_analysis_total sd r) as [sd1 E]; [apply Hall; left|].
    rewrite E. apply IH. intros r' Hr'.
    apply (set_analysis_dom _ _ _ _ E). apply Hall. right. exact Hr'.
Qed.

Lemma found_dom (sd sd1 : SongData) (k : string) :
  (forall j, is_Some (sd1 !! j) <-> is_Some (sd !! j)) ->
  found sd k -> found sd1 k.
Proof.
  intros Hdom [Hown|Hinh]; [left; apply Hdom; exact Hown|right; exact Hinh].
Qed.

Lemma set_analysis_found (sd : SongData) (r : Response) :
  found sd (path_id r) -> exists sd', set_analysis sd r = inr sd'.
Proof.
  intros [Hown|Hinh]; [apply set_analysis_total; exact Hown|].
  unfold set_analysis. destruct (sd !! path_id r); [eauto|].
  rewrite Hinh. eauto.
Qed.


(** The loop over [songs] attaches the 200 responses and keeps the rest. *)
Lemma collect_attach (songs : list Settled) :
  forall sd errors sd' errors',
    collect songs sd errors = inr (sd', errors') ->
    attach_all (attached_of_songs songs) sd = inr sd'
    /\ errors' = errors
                  ++ List.filter (fun s => negb (settled_status s =? 200)) songs.
Proof.
  induction songs as [|song songs IH]; intros sd errors sd' errors' H;
    simpl in H.
  - inversion H; subst. simpl. rewrite app_nil_r. auto.
  - destruct song as [r|f]; simpl in *.
    + destruct (status r =? 200) eqn:S; simpl in *.
      * destruct (set_analysis sd r) as [e|sd1]; [discriminate|].
        apply IH. exact H.
      * apply IH in H as [H1 ->]. split; [exact H1|].
        rewrite <- app_assoc. reflexivity.
    + destruct (f_status f =? 200) eqn:S; simpl in *; [discriminate|].
      apply IH in H as [H1 ->]. split; [exact H1|].
      rewrite <- app_assoc. reflexivity.
Qed.

(** The loop over [retries] attaches the 200 responses and counts the rest. *)
Lemma merge_retries_attach (retries : list Retried) :
  forall sd i,
    merge_retries retries sd i
    = match attach_all (attached_of_retries retries) sd with
      | inl e => inl e
      | inr sd' =>
          inr (sd',
               (i + length (List.filter (fun x => negb (retried_ok x)) retries))%nat)
      end.
Proof.
  induction retries as [|[r|] retries IH]; intros sd i; simpl.
  - rewrite Nat.add_0_r. reflexivity.
  - destruct (status r =? 200) eqn:S; simpl.
    + destruct (set_analysis sd r) as [e|sd1]; [reflexivity|]. apply IH.
    + rewrite IH. destruct (attach_all _ sd); [reflexivity|].
      rewrite Nat.add_succ_r. reflexivity.
  - rewrite IH. destruct (attach_all _ sd); [reflexivity|].
    rewrite Nat.add_succ_r. reflexivity.
Qed.

Lemma elem_of_attached_of_songs (songs : list Settled) (r : Response) :
  r ∈ attached_of_songs songs <-> SResponse r ∈ songs /\ status r = 200.
Proof.
  induction songs as [|[r0|f] songs IH]; simpl.
  - split; [intros H; inversion H|intros [H _]; inversion H].
  - destruct (Z.eqb_spec (status r0) 200) as [E|E].
    + rewrite !elem_of_cons, IH. split.
      * intros [->|[H1 H2]]; auto.
      * intros [[H|H] H2]; [inversion H; auto|auto].
    + rewrite elem_of_cons, IH. split.
      * intros [H1 H2]; auto.
      * intros [[H|H] H2]; [inversion H; subst; contradiction|auto].
  - rewrite elem_of_cons, IH. split.
    + intros [H1 H2]; auto.
    + intros [[H|H] H2]; [discriminate|auto].
Qed.

Lemma elem_of_attached_of_retries (retries : list Retried) (r : Response) :
  r ∈ attached_of_retries retries <-> RResponse r ∈ retries /\ status r = 200.
Proof.
  induction retries as [|[r0|] retries IH]; simpl.
  - split; [intros H; inversion H|intros [H _]; inversion H].
  - destruct (Z.eqb_spec (status r0) 200) as [E|E].
    + rewrite !elem_of_cons, IH. split.
      * intros [->|[H1 H2]]; auto.
      * intros [[H|H] H2]; [inversion H; auto|auto].
    + rewrite elem_of_cons, IH. split.
      * intros [H1 H2]; auto.
      * intros [[H|H] H2]; [inversion H; subst; contradiction|auto].
  - rewrite elem_of_cons, IH. split.
    + intros [H1 H2]; auto.
    + intros [[H|H] H2]; [discriminate|auto].
Qed.

(** ** Attaching features *)

Lemma set_features_inv (sd sd' : SongData) (song : Features) :
  set_features sd song = inr sd' ->
  (exists rec,
      sd !! to_str (feat_id song) = Some rec
      /\ sd' = <[to_str (feat_id song) :=
                   mkRecord (name rec) (popularity rec) (Some song)
                            (analysis rec)]> sd)
  \/ (sd !! to_str (feat_id song) = None
      /\ inherited (to_str (feat_id song)) = true /\ sd' = sd).
Proof.
  unfold set_features.
  destruct (sd !! to_str (feat_id song)) as [rec|].
  - intros H. inversion H; subst. left. exists rec. auto.
  - destruct (inherited (to_str (feat_id song))); [|discriminate].
    intros H. inversion H; subst. right. auto.
Qed.

Lemma set_features_own (sd : SongData) (song : Features) (rec : TrackRecord) :
  sd !! to_str (feat_id song) = Some rec ->
  set_features sd song
  = inr (<[to_str (feat_id song) :=
             mkRecord (name rec) (popularity rec) (Some song)
                      (analysis rec)]> sd).
Proof.
  intros H. unfold set_features. rewrite H. reflexivity.
Qed.

Lemma set_features_error (sd : SongData) (song : Features) (e : JsError) :
  set_features sd song = inl e ->
  e = TypeError /\ sd !! to_str (feat_id song) = None.
Proof.
  unfold set_features. destruct (sd !! to_str (feat_id song)); [discriminate|].
  destruct (inherited (to_str (feat_id song))); [discriminate|].
  intros H. inversion H. auto.
Qed.

Lemma set_features_stray (sd : SongData) (song : Features) :
  sd !! to_str (feat_id song) = None ->
  inherited (to_str (feat_id song)) = false ->
  set_features sd song = inl TypeError.
Proof.
  intros H Hi. unfold set_features. rewrite H, Hi. reflexivity.
Qed.

Lemma set_features_dom (sd sd' : SongData) (song : Features) (k : string) :
  set_features sd song = inr sd' ->
  (is_Some (sd' !! k) <-> is_Some (sd !! k)).
Proof.
  intros H.
  destruct (set_features_inv _ _ _ H) as [(rec & Hrec & ->)|(_ & _ & ->)];
    [|reflexivity].
  rewrite lookup_insert_is_Some'. split; [|auto].
  intros [<-|Hk]; [eauto|exact Hk].
Qed.

Lemma features_from_refl (feats : list (option Features)) (k : string)
    (rec : TrackRecord) :
  features_from feats k rec rec.
Proof.
  unfold features_from. do 3 (split; [reflexivity|]). left. reflexivity.
Qed.

Lemma features_from_cons (o : option Features) (feats : list (option Features))
    (k : string) (rec rec' : TrackRecord) :
  features_from feats k rec rec' -> features_from (o :: feats) k rec rec'.
Proof.
  intros (N & P & A & F). do 3 (split; [assumption|]).
  destruct F as [F|(s' & Hin & Hp & F)]; [left; exact F|].
  right. exists s'. split; [right; exact Hin|auto].
Qed.

Section Fanout.

Variable net : nat -> Request -> NetResult.
Variable accessToken : string.

Lemma fanout_dom (feats : list (option Features)) :
  forall sd ps w sd' ps' w' k,
    fanout net accessToken feats sd ps w = (inr (sd', ps'), w') ->
    (is_Some (sd' !! k) <-> is_Some (sd !! k)).
Proof.
  induction feats as [|[song|] feats IH]; intros sd ps w sd' ps' w' k H;
    simpl in H.
  - inversion H; subst. reflexivity.
  - unfold bind at 1 in H.
    destruct (set_features sd song) as [e|sd1] eqn:E; simpl in H;
      [discriminate|].
    unfold bind, Axios in H.
    rewrite (IH _ _ _ _ _ _ k H). eapply set_features_dom; eassumption.
  - discriminate.
Qed.

Lemma fanout_provenance (feats : list (option Features)) :
  forall sd ps w sd' ps' w' k rec',
    fanout net accessToken feats sd ps w = (inr (sd', ps'), w') ->
    sd' !! k = Some rec' ->
    exists rec, sd !! k = Some rec /\ features_from feats k rec rec'.
Proof.
  induction feats as [|[song|] feats IH]; intros sd ps w sd' ps' w' k rec' H Hk;
    simpl in H.
  - inversion H; subst. exists rec'. split; [exact Hk|].
    apply features_from_refl.
  - unfold bind at 1 in H.
    destruct (set_features sd song) as [e|sd1] eqn:E; simpl in H;
      [discriminate|].
    unfold bind, Axios in H.
    destruct (IH _ _ _ _ _ _ _ _ H Hk) as (rec1 & H1 & Hfrom).
    destruct (set_features_inv _ _ _ E) as [(rec0 & H0 & ->)|(_ & _ & ->)].
    + destruct Hfrom as (N & P & A & F).
      apply lookup_insert_Some in H1 as [[<- <-]|[Hne H1]].
      * exists rec0. split; [exact H0|]. simpl in *.
        do 3 (split; [assumption|]).
        right. destruct F as [F|(s' & Hin & Hp & F)].
        -- exists song. split; [left|auto].
        -- exists s'. split; [right; exact Hin|auto].
      * exists rec1. split; [exact H1|].
        apply features_from_cons. unfold features_from. auto.
    + exists rec1. split; [exact H1|]. apply features_from_cons. exact Hfrom.
  - discriminate.
Qed.

Lemma fanout_hit (feats : list (option Features)) :
  forall sd ps w sd' ps' w' song,
    fanout net accessToken feats sd ps w = (inr (sd', ps'), w') ->
    Some song ∈ feats ->
    is_Some (sd !! to_str (feat_id song)) ->
    exists rec' song',
      sd' !! to_str (feat_id song) = Some rec'
      /\ Some song' ∈ feats
      /\ to_str (feat_id song') = to_str (feat_id song)
      /\ features rec' = Some song'.
Proof.
  induction feats as [|[s0|] feats IH];
    intros sd ps w sd' ps' w' song H Hin Hown; simpl in H.
  - inversion Hin.
  - unfold bind at 1 in H.
    destruct (set_features sd s0) as [e|sd1] eqn:E; simpl in H;
      [discriminate|].
    unfold bind, Axios in H.
    apply elem_of_cons in Hin as [Heq|Hin].
    + inversion Heq; subst s0.
      destruct Hown as [rec0 H0].
      rewrite (set_features_own _ _ _ H0) in E. inversion E; subst sd1.
      assert (Hs : is_Some (sd' !! to_str (feat_id song))).
      { apply (fanout_dom _ _ _ _ _ _ _ _ H). rewrite lookup_insert_eq. eauto. }
      destruct Hs as [rec' Hrec'].
      destruct (fanout_provenance _ _ _ _ _ _ _ _ _ H Hrec')
        as (rec1 & H1 & _ & _ & _ & F).
      rewrite lookup_insert_eq in H1. inversion H1; subst rec1. simpl in F.
      destruct F as [F|(s' & Hin & Hp & F)].
      * exists rec', song. split; [exact Hrec'|]. split; [left|auto].
      * exists rec', s'. split; [exact Hrec'|]. split; [right; exact Hin|auto].
    + destruct (IH _ _ _ _ _ _ _ H Hin) as (rec' & s' & Hk & Hin' & Hp & F).
      { apply (set_features_dom _ _ _ _ E). exact Hown. }
      exists rec', s'. split; [exact Hk|]. split; [right; exact Hin'|auto].
  - discriminate.
Qed.

(** A feature object that names neither a record nor an inherited member
    stops the fan-out with a TypeError. *)
Lemma fanout_stray (feats : list (option Features)) (song : Features) :
  forall sd ps w,
    Some song ∈ feats ->
    sd !! to_str (feat_id song) = None ->
    inherited (to_str (feat_id song)) = false ->
    exists w', fanout net accessToken feats sd ps w = (inl TypeError, w').
Proof.
  induction feats as [|[s0|] feats IH]; intros sd ps w Hin Hnone Hplain; simpl.
  - inversion Hin.
  - unfold bind at 1.
    destruct (set_features sd s0) as [e|sd1] eqn:E; simpl.
    + apply set_features_error in E as [-> _]. eauto.
    + apply elem_of_cons in Hin as [Heq|Hin].
      * inversion Heq; subst s0.
        rewrite (set_features_stray _ _ Hnone Hplain) in E. discriminate.
      * unfold bind, Axios. apply IH; [exact Hin| |exact Hplain].
        apply eq_None_not_Some. intros Hs.
        apply (set_features_dom _ _ _ _ E) in Hs.
        rewrite Hnone in Hs. destruct Hs as [? Hs]. discriminate.
  - eauto.
Qed.

End Fanout.

(** ** The retry pass *)

Section Retry.

Variable net : nat -> Request -> NetResult.
Variable accessToken : string.

Lemma retry_pass_run (sd : SongData) (errors : list Settled) (w : World) :
  retry_pass net accessToken sd errors w
  = match attach_all
            (attached_of_retries (retried net accessToken (calls w) errors)) sd
    with
    | inl e => (inl e, retry_world accessToken errors w)
    | inr sd' =>
        (inr sd',
         emit (EvResidual (residual (retried net accessToken (calls w) errors)))
              (retry_world accessToken errors w))
    end.
Proof.
  unfold retry_pass, bind, sleep, call_resolve, setTimeout, ret, bind.
  rewrite issue_retries_run. simpl.
  rewrite merge_retries_attach. unfold retry_world, residual.
  rewrite <- app_assoc. simpl.
  destruct (attach_all _ sd) as [e|sd']; reflexivity.
Qed.

(** The flow is never suspended: the clock after the retry pass is the
    clock before it. *)
Lemma retry_pass_clock (sd : SongData) (errors : list Settled) (w : World) :
  now (snd (retry_pass net accessToken sd errors w)) = now w.
Proof.
  rewrite retry_pass_run. destruct (attach_all _ sd); reflexivity.
Qed.


End Retry.

(** ** The residual count *)

Lemma validateStatus_200 (z : Z) : z = 200 -> validateStatus z = true.
Proof.
  intros ->. reflexivity.
Qed.


Lemma retry_settle_200 (res : NetResult) (req : Request) (r : Response) :
  retry_settle (axios_settle res req) = RResponse r /\ status r = 200
  <-> res = Responded r /\ status r = 200.
Proof.
  split.
  - intros [H Hst]. destruct res as [|r0]; simpl in H; [discriminate|].
    destruct (validateStatus (status r0)); simpl in H; [|discriminate].
    inversion H; subst r0. auto.
  - intros [-> Hst]. simpl. rewrite (validateStatus_200 _ Hst). auto.
Qed.

Lemma elem_of_retried_200
    (net : nat -> Request -> NetResult) (accessToken : string)
    (errors : list Settled) :
  forall n r,
    RResponse r ∈ retried net accessToken n errors /\ status r = 200
    <-> retry_returned net accessToken n errors r.
Proof.
  induction errors as [|error errors IH]; intros n r; cbn [retried].
  - split.
    + intros [H _]. inversion H.
    + intros (i & e & Hi & _). rewrite lookup_nil in Hi. discriminate.
  - split.
    + intros [H Hst]. apply elem_of_cons in H as [H|H].
      * exists 0%nat, error. split; [reflexivity|].
        rewrite Nat.add_0_r.
        apply (retry_settle_200 _ (request accessToken (settled_url error))).
        auto.
      * destruct (proj1 (IH (S n) r) (conj H Hst)) as (i & e & Hi & Hn & _).
        exists (S i), e. split; [exact Hi|].
        rewrite Nat.add_succ_r. auto.
    + intros ([|i] & e & Hi & Hn & Hst).
      * inversion Hi; subst e. rewrite Nat.add_0_r in Hn.
        split; [|exact Hst]. apply elem_of_cons. left. symmetry.
        apply (retry_settle_200 _ (request accessToken (settled_url error))).
        auto.
      * rewrite Nat.add_succ_r in Hn.
        destruct (proj2 (IH (S n) r)) as [H _].
        { exists i, e. auto. }
        split; [|exact Hst]. apply elem_of_cons. right. exact H.
Qed.





(** ** The fast path *)

(** C8: when the loop over [songs] ends with no failure, the operation
    resolves with the result set of the fan-out, in the world the fan-out
    left: the clock has not moved and the trace holds request events only,
    so no timer was set, no retry was issued and nothing was logged. *)
Theorem C8_no_failure_fast_path
    (net : nat -> Request -> NetResult) (accessToken genre : string)
    (w w1 : World) (sd : SongData) (errors : list Settled) :
  chain net accessToken genre w = (inr (sd, errors), w1) ->
  errors = [] ->
  getTop100AudioData net accessToken (VString genre) w = (Resolved sd, w1)
  /\ now w1 = now w
  /\ exists reqs, trace w1 = trace w ++ map EvRequest reqs.
Proof.
  intros Hchain ->. split.
  - unfold getTop100AudioData. rewrite Hchain. reflexivity.
  - exact (only_requests_chain net accessToken genre w _ _ Hchain).
Qed.

Lemma C8_no_failure_fast_path_witness :
  getTop100AudioData Sample.net_clean Sample.token (VString "rock") world0
  = (Resolved Sample.clean_sd, snd Sample.clean_result)
  /\ now (snd Sample.clean_result) = 0.
Proof.
  destruct (C8_no_failure_fast_path Sample.net_clean Sample.token "rock"
              world0 (snd Sample.clean_result) Sample.clean_sd [])
    as (Hrun & Hnow & _).
  - vm_compute. reflexivity.
  - reflexivity.
  - split; [exact Hrun|exact Hnow].
Defined.

(** The failures handed to the retry pass are the elements of [songs]
    whose status is not 200, in order. *)
Lemma collect_errors (songs : list Settled) (sd sd' : SongData)
    (errors' : list Settled) :
  collect songs sd [] = inr (sd', errors') ->
  errors' = List.filter (fun s => negb (settled_status s =? 200)) songs.
Proof.
  intros H. apply collect_attach in H as [_ ->]. reflexivity.
Qed.

(** ** The suspension before the retry *)

Lemma sleep_run (delay : jsnum) (w : World) :
  sleep delay w
  = (inr tt, mkWorld (calls w) (now w) (trace w ++ [EvTimer CbUndefined delay])).
Proof. reflexivity. Qed.

Lemma sleep_documented_run (delay : jsnum) (w : World) :
  sleep_documented delay w
  = (inr tt, mkWorld (calls w) (now w + delay_ms delay)
               (trace w ++ [EvTimer CbResolve delay])).
Proof. reflexivity. Qed.

(** C5 does not hold of the code: under [Sample.net_retry] the computed
    delay is 7000 ms, the timer is set without a callback, and the two
    retries are issued with the clock still at 0, where the documented
    [sleep] would have moved it to 7000. *)
Theorem C5_retry_is_not_delayed :
  backoff Sample.chain_errors = JNum 7000
  /\ now (snd (sleep (backoff Sample.chain_errors) Sample.chain_world)) = 0
  /\ now (snd (sleep_documented (backoff Sample.chain_errors)
                 Sample.chain_world)) = 7000
  /\ now (snd (getTop100AudioData Sample.net_retry Sample.token
                 (VString "rock") world0)) = 0
  /\ skipn 6 (trace (snd (getTop100AudioData Sample.net_retry Sample.token
                            (VString "rock") world0)))
     = [EvTimer CbUndefined (JNum 7000);
        EvRequest (request Sample.token
          (Some "https://api.spotify.com/v1/audio-analysis/a"));
        EvRequest (request Sample.token
          (Some "https://api.spotify.com/v1/audio-analysis/c"));
        EvResidual 1].
Proof.
  repeat split; vm_compute; reflexivity.
Qed.

(** ** Failures of the fan-out *)

Lemma analysis_catch_response (err : AxiosErr) (resp : Response) :
  err_response err = Some resp ->
  exists f,
    analysis_catch err = inr (SFailure f)
    /\ f_status f = status resp
    /\ f_url f = err_config_url err.
Proof.
  intros H. unfold analysis_catch. rewrite H. eexists. split; [reflexivity|].
  split; reflexivity.
Qed.

Lemma analysis_catch_no_response (err : AxiosErr) :
  err_response err = None -> analysis_catch err = inl TypeError.
Proof.
  intros H. unfold analysis_catch. rewrite H. reflexivity.
Qed.

(** C1 does not hold of the code: an analysis request that gets no answer
    makes the handler of the fan-out throw, and the operation rejects with
    that TypeError instead of handing a failure record to the retry. *)
Theorem C1_network_failure_rejects :
  analysis_settle
    (axios_settle NoResponse
       (request Sample.token
          (Some "https://api.spotify.com/v1/audio-analysis/a")))
    = inl TypeError
  /\ fst (getTop100AudioData Sample.net_offline Sample.token
            (VString "rock") world0)
     = Rejected TypeError
  /\ skipn 6 (trace (snd (getTop100AudioData Sample.net_offline Sample.token
                            (VString "rock") world0)))
     = [EvFatal TypeError].
Proof.
  repeat split; vm_compute; reflexivity.
Qed.

(** ** The guard on [genre] and the playlist of the genre *)

Lemma requests_app (a b : list Event) :
  requests (a ++ b) = requests a ++ requests b.
Proof.
  induction a as [|[r|cb d|n|e] a IH]; simpl; rewrite ?IH; reflexivity.
Qed.

Lemma requests_map (reqs : list Request) :
  requests (map EvRequest reqs) = reqs.
Proof.
  induction reqs as [|r reqs IH]; simpl; rewrite ?IH; reflexivity.
Qed.

(** C4, as stated, fails: the empty string is not a non-empty string, yet
    the operation does not throw for it and issues the playlist request. *)
Lemma C4_empty_string_reaches_upstream :
  nonempty_string (VString "") = false
  /\ fst (getTop100AudioData Sample.net_no_playlist Sample.token
            (VString "") world0)
     <> Threw GenreNotString
  /\ requests (trace (snd (getTop100AudioData Sample.net_no_playlist
                             Sample.token (VString "") world0)))
     = [mkRequest "Bearer tok"
          (Some "https://api.spotify.com/v1/browse/categories//playlists")].
Proof.
  split; [reflexivity|]. split; [vm_compute; discriminate|].
  vm_compute. reflexivity.
Qed.

(** C4 (amended): a [genre] that is not a string makes the operation throw
    before any request; every string, the empty one included, passes the
    guard and the playlist request is issued first; and when the answer
    lists no playlist the operation rejects with the TypeError of reading
    the first element, after that single request. *)
Theorem C4_genre_guard
    (net : nat -> Request -> NetResult) (accessToken : string) :
  (forall genre w,
      typeof genre <> "string" ->
      getTop100AudioData net accessToken genre w = (Threw GenreNotString, w))
  /\ (forall s w,
         (forall e, fst (getTop100AudioData net accessToken (VString s) w)
                    <> Threw e)
         /\ exists tl,
             trace (snd (getTop100AudioData net accessToken (VString s) w))
             = trace w ++ EvRequest (playlistRequest accessToken s) :: tl)
  /\ (forall s w r0,
         net (calls w) (playlistRequest accessToken s) = Responded r0 ->
         validateStatus (status r0) = true ->
         data r0 = BPlaylists [] ->
         getTop100AudioData net accessToken (VString s) w
         = (Rejected TypeError,
            mkWorld (S (calls w)) (now w)
              (trace w ++ [EvRequest (playlistRequest accessToken s);
                           EvFatal TypeError]))).
Proof.
  split; [|split].
  - intros genre w Hty. destruct genre; try reflexivity.
    exfalso. apply Hty. reflexivity.
  - intros s w.
    destruct (chain_first_request net accessToken s w) as [reqs Hreqs].
    unfold getTop100AudioData.
    destruct (chain net accessToken s w) as [[e|[sd errors]] w1] eqn:E;
      simpl in Hreqs.
    + split; [intros e'; discriminate|]. simpl. rewrite Hreqs.
      rewrite <- app_assoc. simpl. eauto.
    + destruct errors as [|x errors].
      * split; [intros e'; discriminate|]. simpl. eauto.
      * rewrite retry_pass_run.
        destruct (attach_all _ sd) as [e|sd']; simpl;
          (split; [intros e'; discriminate|]);
          rewrite Hreqs, <- !app_assoc; simpl; eauto.
  - intros s w r0 H0 V0 D0.
    unfold getTop100AudioData, chain, stage_listing, bind, Axios, axios_settle.
    rewrite H0, V0. simpl. unfold first_href. rewrite D0. simpl.
    unfold emit. simpl. rewrite <- app_assoc. reflexivity.
Qed.

Lemma C4_genre_guard_witness :
  getTop100AudioData Sample.net_no_playlist Sample.token (VNumber (JNum 7))
    world0 = (Threw GenreNotString, world0)
  /\ getTop100AudioData Sample.net_no_playlist Sample.token (VString "rock")
       world0
     = (Rejected TypeError,
        mkWorld 1 0 [EvRequest (playlistRequest Sample.token "rock");
                     EvFatal TypeError]).
Proof.
  destruct (C4_genre_guard Sample.net_no_playlist Sample.token)
    as (Hthrow & _ & Hempty).
  split.
  - apply Hthrow. simpl. discriminate.
  - apply (Hempty "rock" world0
             (mkResponse 200 None "/v1/browse/categories/rock/playlists"
                (BPlaylists []))); reflexivity.
Defined.

(** ** The features request *)

(** C7: when the listing stage has succeeded and the features request is
    answered with a status outside 2xx, the operation rejects with the
    Axios error that carries that answer, and the only requests ever issued
    are the playlist, the track listing and the features request. *)
Theorem C7_features_failure_aborts
    (net : nat -> Request -> NetResult) (accessToken genre fu : string)
    (sd : SongData) (w w1 : World) (r2 : Response) :
  stage_listing net accessToken genre w = (inr (fu, sd), w1) ->
  net (calls w1) (featuresRequest accessToken fu) = Responded r2 ->
  validateStatus (status r2) = false ->
  exists w2 p,
    getTop100AudioData net accessToken (VString genre) w
    = (Rejected (AxiosError (mkAxiosErr (Some r2) (Some (slice_0_m1 fu)))), w2)
    /\ requests (trace w2)
       = requests (trace w)
         ++ [playlistRequest accessToken genre;
             request accessToken (Some (tracks_href p));
             featuresRequest accessToken fu].
Proof.
  intros Hl H2 V2.
  destruct (stage_listing_inv _ _ _ _ _ _ _ Hl)
    as (r0 & p & ps & r1 & items & _ & _ & _ & _ & _ & _ & _ & Hw1).
  eexists _, p. split.
  - unfold getTop100AudioData, chain. unfold bind at 1. rewrite Hl. simpl.
    unfold stage_features. unfold bind at 1 2. unfold Axios, axios_settle.
    rewrite H2, V2. simpl. unfold bind. simpl. reflexivity.
  - simpl. rewrite Hw1. simpl.
    rewrite <- !app_assoc, !requests_app. simpl. reflexivity.
Qed.

Lemma C7_features_failure_aborts_witness :
  exists w2 p,
    getTop100AudioData Sample.net_features_401 Sample.token (VString "rock")
      world0
    = (Rejected (AxiosError
         (mkAxiosErr
            (Some (mkResponse 401 None "/v1/audio-features/" BOther))
            (Some (slice_0_m1 Sample.listed_url)))), w2)
    /\ requests (trace w2)
       = [playlistRequest Sample.token "rock";
          request Sample.token (Some (tracks_href p));
          featuresRequest Sample.token Sample.listed_url].
Proof.
  apply (C7_features_failure_aborts Sample.net_features_401 Sample.token
           "rock" Sample.listed_url Sample.listed world0 Sample.listed_world).
  - vm_compute. reflexivity.
  - reflexivity.
  - reflexivity.
Defined.

(** C10 (amended): when the listing stage has succeeded and the 2xx answer
    to the features request holds a feature object whose id is not a key
    of the result set and names nothing on the prototype chain of
    [songData] either, the operation rejects with a TypeError; no result
    set is returned. *)
Theorem C10_stray_feature_rejects
    (net : nat -> Request -> NetResult) (accessToken genre fu : string)
    (sd : SongData) (w w1 : World) (r2 : Response)
    (feats : list (option Features)) (song : Features) :
  stage_listing net accessToken genre w = (inr (fu, sd), w1) ->
  net (calls w1) (featuresRequest accessToken fu) = Responded r2 ->
  validateStatus (status r2) = true ->
  data r2 = BFeatures feats ->
  Some song ∈ feats ->
  sd !! to_str (feat_id song) = None ->
  on_prototype_chain (to_str (feat_id song)) = false ->
  exists w2,
    getTop100AudioData net accessToken (VString genre) w
    = (Rejected TypeError, w2).
Proof.
  intros Hl H2 V2 D2 Hin Hnone Hplain.
  apply orb_false_iff in Hplain as [Hplain _].
  destruct (fanout_stray net accessToken feats song sd []
              (mkWorld (S (calls w1)) (now w1)
                 (trace w1 ++ [EvRequest (featuresRequest accessToken fu)]))
              Hin Hnone Hplain) as [w' Hf].
  exists (emit (EvFatal TypeError) w').
  unfold getTop100AudioData, chain. unfold bind at 1. rewrite Hl. simpl.
  unfold stage_features. unfold bind at 1 2. unfold Axios, axios_settle.
  rewrite H2, V2. simpl. unfold bind at 1. simpl. rewrite D2.
  unfold bind at 1. rewrite Hf. reflexivity.
Qed.

Lemma C10_stray_feature_rejects_witness :
  exists w2,
    getTop100AudioData Sample.net_stray_feature Sample.token (VString "rock")
      world0
    = (Rejected TypeError, w2).
Proof.
  apply (C10_stray_feature_rejects Sample.net_stray_feature Sample.token
           "rock" Sample.listed_url Sample.listed world0 Sample.listed_world
           (mkResponse 200 None "/v1/audio-features/"
              (BFeatures [Sample.feat "b"; Sample.feat "z"; Sample.feat "c"]))
           [Sample.feat "b"; Sample.feat "z"; Sample.feat "c"]
           (mkFeatures (Some "z")
              "https://api.spotify.com/v1/audio-analysis/z" "features")).
  - vm_compute. reflexivity.
  - reflexivity.
  - reflexivity.
  - reflexivity.
  - right. left.
  - vm_compute. reflexivity.
  - reflexivity.
Defined.

(** C10 as claimed fails: the features name [constructor], which is not a
    key of the result set built from the listing, and the operation
    resolves, with the records of the listing; [songData.constructor] is
    the inherited [Object], so the assignment of line 119 finds an object
    to write to. *)
Lemma C10_inherited_id_resolves :
  Some Sample.constructor_features
    ∈ [Sample.feat "b"; Sample.feat "constructor"; Sample.feat "c"]
  /\ Sample.listed !! to_str (feat_id Sample.constructor_features) = None
  /\ exists sd w,
      getTop100AudioData Sample.net_inherited_id Sample.token
        (VString "rock") world0
      = (Resolved sd, w)
      /\ dom sd = dom Sample.listed.
Proof.
  split; [right; left|].
  split; [vm_compute; reflexivity|].
  eexists _, _. split; vm_compute; reflexivity.
Qed.

(** * Further properties of the code *)

(** ** Strings *)

Lemma string_app_assoc (a b c : string) : (a +:+ b) +:+ c = a +:+ b +:+ c.
Proof.
  induction a as [|x a IH]; [reflexivity|].
  change (String x ((a +:+ b) +:+ c) = String x (a +:+ b +:+ c)).
  f_equal. exact IH.
Qed.

Lemma string_app_nil_r (a : string) : a +:+ "" = a.
Proof.
  induction a as [|x a IH]; [reflexivity|].
  change (String x (a +:+ "") = String x a). f_equal. exact IH.
Qed.

Lemma slice_0_m1_app (a b : string) :
  b <> "" -> slice_0_m1 (a +:+ b) = a +:+ slice_0_m1 b.
Proof.
  intros Hb. induction a as [|x a IH]; [reflexivity|].
  change (String x a +:+ b) with (String x (a +:+ b)).
  destruct (a +:+ b) as [|y r] eqn:E.
  - destruct a; [simpl in E; contradiction|discriminate].
  - change (slice_0_m1 (String x (String y r)))
      with (String x (slice_0_m1 (String y r))).
    rewrite IH. reflexivity.
Qed.

(** ** The url of the features request *)

Lemma slice_with_commas (a : string) (x : string) (rest : list string) :
  slice_0_m1 (a +:+ with_commas (x :: rest)) = a +:+ join_commas (x :: rest).
Proof.
  revert a x. induction rest as [|y rest IH]; intros a x.
  - simpl. rewrite string_app_nil_r, <- string_app_assoc.
    rewrite slice_0_m1_app by discriminate. simpl.
    rewrite string_app_nil_r. reflexivity.
  - change (with_commas (x :: y :: rest))
      with (x +:+ "," +:+ with_commas (y :: rest)).
    change (join_commas (x :: y :: rest))
      with (x +:+ "," +:+ join_commas (y :: rest)).
    rewrite <- !string_app_assoc. apply IH.
Qed.

Lemma listing_url (items : list TrackItem) :
  forall fu sd fu' sd',
    listing items fu sd = inr (fu', sd') ->
    fu' = fu +:+ with_commas (map track_key (omap item_track items)).
Proof.
  induction items as [|[[t|]] items IH]; intros fu sd fu' sd' H; simpl in H.
  - inversion H; subst. simpl. rewrite string_app_nil_r. reflexivity.
  - apply IH in H. rewrite H. simpl. unfold track_key at 2.
    rewrite !string_app_assoc. reflexivity.
  - discriminate.
Qed.

(** X1: after the loop over the listing, the url of the features request
    is the base url followed by the ids of the entries, in listing order,
    separated by commas; for an empty listing the [slice] removes the [=]
    of the base url instead of a comma. *)
Theorem X1_features_url
    (accessToken : string) (items : list TrackItem) (fu : string)
    (sd : SongData) :
  listing items featureUrl0 ∅ = inr (fu, sd) ->
  url (featuresRequest accessToken fu)
  = Some (match omap item_track items with
          | [] => "https://api.spotify.com/v1/audio-features/?ids"
          | tracks => featureUrl0 +:+ join_commas (map track_key tracks)
          end).
Proof.
  intros H. apply listing_url in H. subst fu. simpl. f_equal.
  destruct (omap item_track items) as [|t tracks]; [reflexivity|].
  apply (slice_with_commas featureUrl0 (track_key t) (map track_key tracks)).
Qed.

Lemma X1_features_url_witness :
  url (featuresRequest Sample.token Sample.listed_url)
  = Some "https://api.spotify.com/v1/audio-features/?ids=a,b,c".
Proof.
  apply (X1_features_url Sample.token
           [Sample.item "a"; Sample.item "b"; Sample.item "c"]
           Sample.listed_url Sample.listed).
  vm_compute. reflexivity.
Defined.

(** ** Duplicate ids in the listing *)

Lemma listing_lookup (items : list TrackItem) :
  forall fu sd fu' sd' k,
    listing items fu sd = inr (fu', sd') ->
    sd' !! k
    = match (if String.eqb k "__proto__" then None
             else last_with_key k (omap item_track items)) with
      | Some t => Some (listed_record t)
      | None => sd !! k
      end.
Proof.
  induction items as [|[[t|]] items IH]; intros fu sd fu' sd' k H; simpl in H.
  - inversion H; subst. destruct (String.eqb k "__proto__"); reflexivity.
  - rewrite (IH _ _ _ _ k H).
    change (omap item_track (mkTrackItem (Some t) :: items))
      with (t :: omap item_track items).
    cbn [last_with_key].
    rewrite set_record_lookup.
    destruct (String.eqb_spec k "__proto__") as [P|P].
    + destruct (String.eqb_spec (to_str (track_id t)) "__proto__") as [Q|Q];
        [reflexivity|].
      rewrite decide_False by congruence. reflexivity.
    + destruct (last_with_key k (omap item_track items)); [reflexivity|].
      unfold track_key.
      destruct (String.eqb_spec (to_str (track_id t)) k) as [E|E].
      * destruct (String.eqb_spec (to_str (track_id t)) "__proto__") as [Q|Q];
          [congruence|].
        rewrite decide_True by exact E. reflexivity.
      * destruct (String.eqb (to_str (track_id t)) "__proto__");
          [reflexivity|].
        rewrite decide_False by exact E. reflexivity.
  - discriminate.
Qed.

Lemma last_with_key_Some (k : string) (tracks : list Track) (t : Track) :
  last_with_key k tracks = Some t -> t ∈ tracks /\ track_key t = k.
Proof.
  induction tracks as [|t0 tracks IH]; simpl; [discriminate|].
  destruct (last_with_key k tracks) as [t'|].
  - intros H. inversion H; subst t'. destruct (IH eq_refl) as [Hin Hk].
    split; [right; exact Hin|exact Hk].
  - destruct (String.eqb_spec (track_key t0) k) as [E|E]; [|discriminate].
    intros H. inversion H; subst t0. split; [left|exact E].
Qed.

Lemma last_with_key_None (k : string) (tracks : list Track) :
  last_with_key k tracks = None <-> k ∉ map track_key tracks.
Proof.
  induction tracks as [|t0 tracks IH]; simpl.
  - split; [intros _ H; inversion H|reflexivity].
  - rewrite not_elem_of_cons, <- IH.
    destruct (last_with_key k tracks) as [t'|].
    + split; [discriminate|intros [_ H]; discriminate].
    + destruct (String.eqb_spec (track_key t0) k) as [E|E].
      * split; [discriminate|intros [H _]; congruence].
      * split; [intros _; split; [congruence|reflexivity]|reflexivity].
Qed.

Lemma listing_lookup_empty
    (items : list TrackItem) (fu : string) (sd : SongData) (k : string) :
  listing items featureUrl0 ∅ = inr (fu, sd) ->
  sd !! k
  = if String.eqb k "__proto__" then None
    else listed_record <$> last_with_key k (omap item_track items).
Proof.
  intros H. rewrite (listing_lookup _ _ _ _ _ k H).
  destruct (String.eqb k "__proto__"); [reflexivity|].
  destruct (last_with_key k (omap item_track items)); reflexivity.
Qed.

Lemma elem_of_own_keys (k : string) (tracks : list Track) :
  k ∈ own_keys tracks <-> k ∈ map track_key tracks /\ k <> "__proto__".
Proof.
  unfold own_keys. rewrite !list_elem_of_In, filter_In, negb_true_iff.
  destruct (String.eqb_spec k "__proto__"); intuition congruence.
Qed.

(** X2: when the same id occurs in several entries of the listing, the own
    record stored under it is the one of the last such entry; an id that
    occurs in no entry has no own record, and neither has the id
    [__proto__], whatever the entries. *)
Theorem X2_last_entry_wins
    (items : list TrackItem) (fu : string) (sd : SongData) (k : string) :
  listing items featureUrl0 ∅ = inr (fu, sd) ->
  sd !! k
  = if String.eqb k "__proto__" then None
    else listed_record <$> last_with_key k (omap item_track items).
Proof.
  apply listing_lookup_empty.
Qed.

Lemma X2_last_entry_wins_witness :
  Sample.listed_twice !! "a"
  = Some (mkRecord (Some "second") (Some 2) None None).
Proof.
  rewrite (X2_last_entry_wins
             [mkTrackItem (Some (mkTrack (Some "a") (Some "first") (Some 1)));
              Sample.item "b";
              mkTrackItem (Some (mkTrack (Some "a") (Some "second") (Some 2)))]
             "https://api.spotify.com/v1/audio-features/?ids=a,b,a,"
             Sample.listed_twice "a").
  - reflexivity.
  - vm_compute. reflexivity.
Defined.

(** X3: the own keys of the result set after the listing are exactly the
    ids of the entries other than [__proto__], and there are as many
    records as distinct such ids. *)
Theorem X3_one_record_per_distinct_id
    (items : list TrackItem) (fu : string) (sd : SongData) :
  listing items featureUrl0 ∅ = inr (fu, sd) ->
  dom sd = list_to_set (own_keys (omap item_track items))
  /\ size sd = length (remove_dups (own_keys (omap item_track items))).
Proof.
  intros H.
  assert (Hdom : dom sd = list_to_set (own_keys (omap item_track items))).
  { apply set_eq. intros k.
    rewrite elem_of_dom, elem_of_list_to_set, elem_of_own_keys,
      (listing_lookup_empty _ _ _ k H).
    destruct (String.eqb_spec k "__proto__") as [P|P].
    - split; [intros [x Hx]; discriminate|intros [_ N]; contradiction].
    - destruct (last_with_key k (omap item_track items)) as [t|] eqn:E; simpl.
      + split; [|eauto]. intros _. split; [|exact P].
        apply last_with_key_Some in E as [Hin <-].
        apply list_elem_of_fmap_2. exact Hin.
      + apply last_with_key_None in E. split; [|intros [N _]; contradiction].
        intros [x Hx]. discriminate. }
  split; [exact Hdom|].
  assert (Hdups : (list_to_set (own_keys (omap item_track items))
                   : gset string)
                  = list_to_set
                      (remove_dups (own_keys (omap item_track items)))).
  { apply set_eq. intros k.
    rewrite !elem_of_list_to_set, elem_of_remove_dups. reflexivity. }
  rewrite <- size_dom, Hdom, Hdups.
  apply size_list_to_set, NoDup_remove_dups.
Qed.

Lemma X3_one_record_per_distinct_id_witness :
  dom Sample.listed_twice = list_to_set ["a"; "b"; "a"]
  /\ size Sample.listed_twice = 2%nat.
Proof.
  apply (X3_one_record_per_distinct_id
           [mkTrackItem (Some (mkTrack (Some "a") (Some "first") (Some 1)));
            Sample.item "b";
            mkTrackItem (Some (mkTrack (Some "a") (Some "second") (Some 2)))]
           "https://api.spotify.com/v1/audio-features/?ids=a,b,a,"
           Sample.listed_twice).
  vm_compute. reflexivity.
Defined.

(** ** The requests of the fan-out and of the retry *)

Lemma fanout_cons
    (net : nat -> Request -> NetResult) (accessToken : string)
    (song : Features) (feats : list (option Features)) (sd : SongData)
    (ps : list (JsError + Settled)) (w : World) :
  fanout net accessToken (Some song :: feats) sd ps w
  = match set_features sd song with
    | inl e => (inl e, w)
    | inr sd1 =>
        fanout net accessToken feats sd1
          (ps ++ [analysis_settle
                    (axios_settle
                       (net (calls w) (analysisRequest accessToken song))
                       (analysisRequest accessToken song))])
          (mkWorld (S (calls w)) (now w)
             (trace w ++ [EvRequest (analysisRequest accessToken song)]))
    end.
Proof.
  simpl. unfold bind at 1.
  destruct (set_features sd song) as [e|sd1]; reflexivity.
Qed.

Lemma passes_dom (sd sd1 : SongData) (o : option Features) :
  (forall k, is_Some (sd1 !! k) <-> is_Some (sd !! k)) ->
  passes sd o -> passes sd1 o.
Proof.
  intros Hdom (song & -> & Hfound). exists song. split; [reflexivity|].
  apply (found_dom sd); assumption.
Qed.

Lemma stops_dom (sd sd1 : SongData) (o : option Features) :
  (forall k, is_Some (sd1 !! k) <-> is_Some (sd !! k)) ->
  stops sd o -> stops sd1 o.
Proof.
  intros Hdom [->|(song & -> & Hnone & Hplain)]; [left; reflexivity|].
  right. exists song. split; [reflexivity|]. split; [|exact Hplain].
  apply eq_None_not_Some. intros Hs. apply Hdom in Hs.
  rewrite Hnone in Hs. destruct Hs as [? Hs]. discriminate.
Qed.

Lemma passes_set_features (sd : SongData) (song : Features) :
  passes sd (Some song) -> exists sd1, set_features sd song = inr sd1.
Proof.
  intros (song' & Heq & H). inversion Heq; subst song'.
  unfold set_features. destruct H as [[rec Hown]|Hinh].
  - rewrite Hown. eauto.
  - destruct (sd !! to_str (feat_id song)); [eauto|].
    rewrite Hinh. eauto.
Qed.

Lemma fanout_stops
    (net : nat -> Request -> NetResult) (accessToken : string)
    (o : option Features) (post : list (option Features)) (sd : SongData)
    (ps : list (JsError + Settled)) (w : World) :
  stops sd o ->
  fanout net accessToken (o :: post) sd ps w = (inl TypeError, w).
Proof.
  intros [->|(song & -> & Hnone & Hplain)]; [reflexivity|].
  apply orb_false_iff in Hplain as [Hplain _].
  rewrite fanout_cons, (set_features_stray _ _ Hnone Hplain). reflexivity.
Qed.

(** The fan-out over entries that all pass: the rest of the loop starts in
    the world that holds their requests, with a result set of the same
    keys and one more promise per entry. *)
Lemma fanout_passes
    (net : nat -> Request -> NetResult) (accessToken : string)
    (pre : list Features) (rest : list (option Features)) :
  forall sd ps w,
    (forall song, song ∈ pre -> passes sd (Some song)) ->
    exists sd1 ps1,
      (forall k, is_Some (sd1 !! k) <-> is_Some (sd !! k))
      /\ length ps1 = (length ps + length pre)%nat
      /\ fanout net accessToken (map Some pre ++ rest) sd ps w
         = fanout net accessToken rest sd1 ps1
             (mkWorld (calls w + length pre)%nat (now w)
                (trace w
                 ++ map (fun s => EvRequest (analysisRequest accessToken s))
                        pre)).
Proof.
  induction pre as [|song pre IH]; intros sd ps w Hall.
  - exists sd, ps. split; [reflexivity|]. split; [simpl; lia|].
    destruct w as [c n t]. simpl. rewrite Nat.add_0_r, app_nil_r.
    reflexivity.
  - destruct (passes_set_features sd song) as [sd0 E0]; [apply Hall; left|].
    assert (Hdom0 : forall k, is_Some (sd0 !! k) <-> is_Some (sd !! k)).
    { intros k. eapply set_features_dom. exact E0. }
    change (map Some (song :: pre) ++ rest)
      with (Some song :: (map Some pre ++ rest)).
    rewrite fanout_cons, E0.
    match goal with
    | |- context [fanout net accessToken (map Some pre ++ rest) sd0 ?ps0 ?w0] =>
        destruct (IH sd0 ps0 w0) as (sd1 & ps1 & Hdom & Hlen & Hrun)
    end.
    { intros s Hs. apply (passes_dom sd); [exact Hdom0|].
      apply Hall. right. exact Hs. }
    exists sd1, ps1. split; [|split].
    + intros k. rewrite Hdom. apply Hdom0.
    + rewrite Hlen, length_app. simpl. lia.
    + rewrite Hrun. simpl. rewrite <- app_assoc. simpl.
      replace (S (calls w + length pre)) with (S (calls w) + length pre)%nat
        by lia.
      replace (calls w + S (length pre))%nat
        with (S (calls w) + length pre)%nat by lia.
      reflexivity.
Qed.

(** X4: the fan-out issues its analysis requests in the order of the
    feature objects, one per object, each to the [analysis_url] of its
    object.  When every entry passes, every object has its request and its
    promise.  When the entries before some entry pass and that entry is
    null or names neither a record nor anything on the prototype chain,
    the loop stops there with a TypeError, and the requests issued are
    exactly those of the objects before that entry. *)
Theorem X4_fanout_requests
    (net : nat -> Request -> NetResult) (accessToken : string)
    (sd : SongData) (ps : list (JsError + Settled)) (w : World) :
  (forall songs,
      (forall song, song ∈ songs -> passes sd (Some song)) ->
      exists sd' ps',
        fanout net accessToken (map Some songs) sd ps w
        = (inr (sd', ps'),
           mkWorld (calls w + length songs)%nat (now w)
             (trace w
              ++ map (fun s => EvRequest (analysisRequest accessToken s))
                     songs))
        /\ length ps' = (length ps + length songs)%nat)
  /\ (forall pre o post,
        (forall song, song ∈ pre -> passes sd (Some song)) ->
        stops sd o ->
        fanout net accessToken (map Some pre ++ o :: post) sd ps w
        = (inl TypeError,
           mkWorld (calls w + length pre)%nat (now w)
             (trace w
              ++ map (fun s => EvRequest (analysisRequest accessToken s))
                     pre))).
Proof.
  split.
  - intros songs Hall.
    destruct (fanout_passes net accessToken songs [] sd ps w Hall)
      as (sd1 & ps1 & _ & Hlen & Hrun).
    rewrite app_nil_r in Hrun. exists sd1, ps1.
    split; [exact Hrun|exact Hlen].
  - intros pre o post Hall Hstop.
    destruct (fanout_passes net accessToken pre (o :: post) sd ps w Hall)
      as (sd1 & ps1 & Hdom & _ & Hrun).
    rewrite Hrun. apply fanout_stops.
    apply (stops_dom sd); assumption.
Qed.

Lemma X4_fanout_requests_witness :
  fanout Sample.net_stray_feature Sample.token
    [Sample.feat "b"; Sample.feat "z"; Sample.feat "c"] Sample.listed []
    Sample.featured_world
  = (inl TypeError,
     mkWorld (calls Sample.featured_world + 1)%nat (now Sample.featured_world)
       (trace Sample.featured_world
        ++ [EvRequest
              (analysisRequest Sample.token
                 (mkFeatures (Some "b")
                    "https://api.spotify.com/v1/audio-analysis/b"
                    "features"))])).
Proof.
  destruct (X4_fanout_requests Sample.net_stray_feature Sample.token
              Sample.listed [] Sample.featured_world) as [_ Hstop].
  apply (Hstop [mkFeatures (Some "b")
                  "https://api.spotify.com/v1/audio-analysis/b" "features"]
               (Sample.feat "z") [Sample.feat "c"]).
  - intros song Hin. apply list_elem_of_singleton in Hin. subst song.
    eexists. split; [reflexivity|]. left. vm_compute. eauto.
  - right. eexists. split; [reflexivity|]. split; vm_compute; reflexivity.
Defined.

Lemma retry_pass_requests
    (net : nat -> Request -> NetResult) (accessToken : string)
    (sd : SongData) (errors : list Settled) (w : World) :
  requests (trace (snd (retry_pass net accessToken sd errors w)))
  = requests (trace w) ++ map (retryRequest accessToken) errors.
Proof.
  rewrite retry_pass_run.
  assert (Hreq : forall l : list Settled,
             requests (map (fun e => EvRequest (request accessToken
                                                  (settled_url e))) l)
             = map (retryRequest accessToken) l).
  { induction l as [|e l IHl]; simpl; [reflexivity|]. rewrite IHl.
    reflexivity. }
  destruct (attach_all _ sd) as [e|sd']; simpl;
    rewrite ?requests_app; simpl; rewrite ?requests_app, Hreq; simpl;
    rewrite ?app_nil_r; reflexivity.
Qed.

(** X5: the retry pass issues exactly one request per failure, in the
    order of the failures, each to the url recorded in its failure, whether
    or not the merge of the answers then succeeds. *)
Theorem X5_retry_requests
    (net : nat -> Request -> NetResult) (accessToken : string)
    (sd : SongData) (errors : list Settled) (w : World) :
  requests (trace (snd (retry_pass net accessToken sd errors w)))
  = requests (trace w) ++ map (retryRequest accessToken) errors
  /\ calls (snd (retry_pass net accessToken sd errors w))
     = (calls w + length errors)%nat.
Proof.
  split; [apply retry_pass_requests|].
  rewrite retry_pass_run. destruct (attach_all _ sd); reflexivity.
Qed.

(** X6: a fulfilled answer whose status is not 200 is handed to the retry
    pass as it is; it has no [url] member, so its retry is a request whose
    url is undefined. *)
Theorem X6_retry_without_url
    (net : nat -> Request -> NetResult) (accessToken : string)
    (songs : list Settled) (sd sd' : SongData) (errors : list Settled)
    (r : Response) (w : World) :
  collect songs sd [] = inr (sd', errors) ->
  SResponse r ∈ songs ->
  status r <> 200 ->
  SResponse r ∈ errors
  /\ mkRequest ("Bearer " +:+ accessToken) None
     ∈ requests (trace (snd (retry_pass net accessToken sd' errors w))).
Proof.
  intros Hc Hin Hst.
  assert (Herr : SResponse r ∈ errors).
  { apply collect_attach in Hc as [_ ->]. simpl.
    apply list_elem_of_In, filter_In. split.
    - apply list_elem_of_In. exact Hin.
    - simpl. apply negb_true_iff, Z.eqb_neq. exact Hst. }
  split; [exact Herr|].
  rewrite retry_pass_requests. apply elem_of_app. right.
  apply (list_elem_of_fmap_2 (retryRequest accessToken) errors (SResponse r)).
  exact Herr.
Qed.

Lemma X6_retry_without_url_witness :
  SResponse (mkResponse 204 None "/v1/audio-analysis/a" BOther)
    ∈ [SResponse (mkResponse 204 None "/v1/audio-analysis/a" BOther)]
  /\ mkRequest ("Bearer " +:+ Sample.token) None
     ∈ requests
         (trace (snd (retry_pass Sample.net_retry Sample.token Sample.listed
                        [SResponse (mkResponse 204 None "/v1/audio-analysis/a"
                                      BOther)]
                        world0))).
Proof.
  apply (X6_retry_without_url Sample.net_retry Sample.token
           [SResponse (mkResponse 204 None "/v1/audio-analysis/a" BOther)]
           Sample.listed Sample.listed).
  - reflexivity.
  - left.
  - discriminate.
Defined.

(** ** What the operation never does *)

(** X7: whatever the genre and the upstream behaviour, the operation is
    never suspended on a timer: the time it has spent waiting for timers is
    the same after it as before it. *)
Theorem X7_never_suspended
    (net : nat -> Request -> NetResult) (accessToken : string)
    (genre : JsValue) (w : World) :
  now (snd (getTop100AudioData net accessToken genre w)) = now w.
Proof.
  destruct genre; try reflexivity. unfold getTop100AudioData.
  destruct (chain net accessToken s w) as [[e|[sd errors]] w1] eqn:E;
    destruct (only_requests_chain net accessToken s w _ _ E) as [Hnow _].
  - simpl. exact Hnow.
  - destruct errors as [|x errors]; [exact Hnow|].
    pose proof (retry_pass_clock net accessToken sd (x :: errors) w1) as Hr.
    destruct (retry_pass net accessToken sd (x :: errors) w1) as [[e|sd'] w2];
      simpl in *; congruence.
Qed.

Lemma traced_ret (P : Event -> Prop) {A : Type} (a : A) : traced P (ret a).
Proof.
  intros w r w1 H. inversion H; subst. exists []. rewrite app_nil_r. auto.
Qed.

Lemma traced_throw (P : Event -> Prop) {A : Type} (e : JsError) :
  traced P (throw e : M A).
Proof.
  intros w r w1 H. inversion H; subst. exists []. rewrite app_nil_r. auto.
Qed.

Lemma traced_lift (P : Event -> Prop) {A : Type} (x : JsError + A) :
  traced P (lift x).
Proof.
  destruct x; [apply traced_throw | apply traced_ret].
Qed.

Lemma traced_bind (P : Event -> Prop) {A B : Type} (m : M A) (k : A -> M B) :
  traced P m -> (forall a, traced P (k a)) -> traced P (bind m k).
Proof.
  intros Hm Hk w r w1. unfold bind.
  destruct (m w) as [[e|a] w0] eqn:E; intros H.
  - inversion H; subst. exact (Hm _ _ _ E).
  - destruct (Hm _ _ _ E) as (ev0 & T0 & F0).
    destruct (Hk a _ _ _ H) as (ev1 & T1 & F1).
    exists (ev0 ++ ev1). split.
    + rewrite T1, T0, app_assoc. reflexivity.
    + apply Forall_app. auto.
Qed.

Lemma traced_Axios (P : Event -> Prop)
    (net : nat -> Request -> NetResult) (req : Request) :
  P (EvRequest req) -> traced P (Axios net req).
Proof.
  intros HP w r w1 H. unfold Axios in H. inversion H; subst. simpl.
  exists [EvRequest req]. auto.
Qed.

Lemma traced_fulfilled (P : Event -> Prop) (p : AxiosErr + Response) :
  traced P (fulfilled p).
Proof.
  destruct p; simpl; [apply traced_throw | apply traced_ret].
Qed.

Lemma carries_request (accessToken : string) (u : option string) :
  carries ("Bearer " +:+ accessToken) (EvRequest (request accessToken u)).
Proof. reflexivity. Qed.

Lemma traced_fanout
    (net : nat -> Request -> NetResult) (accessToken : string)
    (feats : list (option Features)) :
  forall sd ps,
    traced (carries ("Bearer " +:+ accessToken))
           (fanout net accessToken feats sd ps).
Proof.
  induction feats as [|[song|] feats IH]; intros sd ps; simpl.
  - apply traced_ret.
  - apply traced_bind; [apply traced_lift|]. intros sd'.
    apply traced_bind; [apply traced_Axios, carries_request|]. intros p.
    apply IH.
  - apply traced_throw.
Qed.

Lemma traced_chain
    (net : nat -> Request -> NetResult) (accessToken genre : string) :
  traced (carries ("Bearer " +:+ accessToken)) (chain net accessToken genre).
Proof.
  unfold chain, stage_listing, stage_features.
  repeat first
    [ apply traced_bind; [|intros ?]
    | apply traced_Axios, carries_request
    | apply traced_fulfilled
    | apply traced_lift
    | apply traced_throw
    | apply traced_fanout
    | match goal with
      | |- traced _ (match data ?r with _ => _ end) => destruct (data r)
      end ].
Qed.

Lemma carries_requests (auth : string) (evs : list Event) :
  Forall (carries auth) evs ->
  forall q, q ∈ requests evs -> authorization q = auth.
Proof.
  induction evs as [|[r|cb d|n|e] evs IH]; intros HF q Hq; simpl in Hq;
    inversion HF; subst.
  - inversion Hq.
  - apply elem_of_cons in Hq as [->|Hq]; [assumption|]. apply IH; assumption.
  - apply IH; assumption.
  - apply IH; assumption.
  - apply IH; assumption.
Qed.

Lemma getTop100AudioData_carries
    (net : nat -> Request -> NetResult) (accessToken : string)
    (genre : JsValue) (w : World) :
  exists evs,
    trace (snd (getTop100AudioData net accessToken genre w)) = trace w ++ evs
    /\ Forall (carries ("Bearer " +:+ accessToken)) evs.
Proof.
  destruct genre;
    try (exists []; simpl; rewrite app_nil_r; split; [reflexivity|constructor]).
  unfold getTop100AudioData.
  destruct (chain net accessToken s w) as [[e|[sd errors]] w1] eqn:E;
    destruct (traced_chain net accessToken s w _ _ E) as (evs & T & F).
  - exists (evs ++ [EvFatal e]). simpl. rewrite T, app_assoc.
    split; [reflexivity|]. apply Forall_app. split; [exact F|].
    constructor; [exact I|constructor].
  - destruct errors as [|x errors]; [exists evs; auto|].
    rewrite retry_pass_run.
    assert (Hr : Forall (carries ("Bearer " +:+ accessToken))
                   (map (fun e => EvRequest (request accessToken
                                               (settled_url e)))
                        (x :: errors))).
    { apply Forall_forall. intros ev Hev.
      apply list_elem_of_fmap in Hev as (e0 & -> & _). reflexivity. }
    destruct (attach_all _ sd) as [e|sd']; simpl.
    + eexists. rewrite T, <- app_assoc. split; [reflexivity|].
      apply Forall_app. split; [exact F|].
      constructor; [exact I|]. exact Hr.
    + eexists. rewrite T, <- !app_assoc. split; [reflexivity|].
      apply Forall_app. split; [exact F|]. simpl.
      constructor; [exact I|].
      change (Forall (carries ("Bearer " +:+ accessToken))
                (map (fun e => EvRequest (request accessToken
                                            (settled_url e)))
                     (x :: errors) ++ [EvResidual
                        (residual (retried net accessToken (calls w1)
                                     (x :: errors)))])).
      apply Forall_app. split; [exact Hr|].
      constructor; [exact I|constructor].
Qed.

(** X8: every request the operation issues, in the chain as in the retry
    pass, carries the header [Authorization: Bearer] followed by the access
    token. *)
Theorem X8_every_request_carries_the_token
    (net : nat -> Request -> NetResult) (accessToken : string)
    (genre : JsValue) (w : World) :
  exists evs,
    trace (snd (getTop100AudioData net accessToken genre w)) = trace w ++ evs
    /\ forall q, q ∈ requests evs ->
                 authorization q = "Bearer " +:+ accessToken.
Proof.
  destruct (getTop100AudioData_carries net accessToken genre w)
    as (evs & T & F).
  exists evs. split; [exact T|]. apply carries_requests. exact F.
Qed.





(** ** The result set from the listing to the end *)

Lemma chain_inv
    (net : nat -> Request -> NetResult) (accessToken genre : string)
    (w w1 : World) (sd : SongData) (errors : list Settled) :
  chain net accessToken genre w = (inr (sd, errors), w1) ->
  exists fu sd0 w0 r2 feats sdf ps songs,
    stage_listing net accessToken genre w = (inr (fu, sd0), w0)
    /\ net (calls w0) (featuresRequest accessToken fu) = Responded r2
    /\ validateStatus (status r2) = true
    /\ data r2 = BFeatures feats
    /\ fanout net accessToken feats sd0 []
         (mkWorld (S (calls w0)) (now w0)
            (trace w0 ++ [EvRequest (featuresRequest accessToken fu)]))
       = (inr (sdf, ps), w1)
    /\ Promise_all ps = inr songs
    /\ collect songs sdf [] = inr (sd, errors).
Proof.
  unfold chain. unfold bind at 1.
  destruct (stage_listing net accessToken genre w) as [[e|[fu sd0]] w0] eqn:L;
    [discriminate|].
  simpl. unfold stage_features. unfold bind at 1 2 3. unfold Axios, axios_settle.
  destruct (net (calls w0) (featuresRequest accessToken fu)) as [|r2] eqn:N;
    simpl; [discriminate|].
  destruct (validateStatus (status r2)) eqn:V; simpl; [|discriminate].
  destruct (data r2) as [| |feats| |] eqn:D; simpl; try discriminate.
  match goal with
  | |- context [fanout net accessToken feats sd0 [] ?w2] =>
      destruct (fanout net accessToken feats sd0 [] w2)
        as [[e|[sdf ps]] w3] eqn:F
  end; [discriminate|].
  unfold bind. simpl.
  destruct (Promise_all ps) as [e|songs] eqn:PA; simpl; [discriminate|].
  destruct (collect songs sdf []) as [e|[sd' errors']] eqn:C; simpl;
    [discriminate|].
  intros H. inversion H; subst.
  exists fu, sd0, w0, r2, feats, sdf, ps, songs. repeat split; auto.
Qed.

Lemma resolved_inv
    (net : nat -> Request -> NetResult) (accessToken genre : string)
    (w w' : World) (sd : SongData) :
  getTop100AudioData net accessToken (VString genre) w = (Resolved sd, w') ->
  exists sd1 errors w1 rs,
    chain net accessToken genre w = (inr (sd1, errors), w1)
    /\ attach_all rs sd1 = inr sd.
Proof.
  unfold getTop100AudioData.
  destruct (chain net accessToken genre w) as [[e|[sd1 errors]] w1] eqn:E;
    [discriminate|].
  destruct errors as [|x errors].
  - intros H. inversion H; subst. exists sd, [], w', []. auto.
  - rewrite retry_pass_run.
    destruct (attach_all _ sd1) as [e|sd'] eqn:A; [discriminate|].
    intros H. inversion H; subst. eauto 10.
Qed.

(** X10: when the operation resolves, the result set has exactly the keys
    the loop over the listing created; each record still has the name and
    the popularity the listing gave it; and the features of a record, when
    present, are a feature object whose id is the key of the record. *)
Theorem X10_result_set_comes_from_the_listing
    (net : nat -> Request -> NetResult) (accessToken genre : string)
    (w w' : World) (sd : SongData) :
  getTop100AudioData net accessToken (VString genre) w = (Resolved sd, w') ->
  exists fu sd0 w0,
    stage_listing net accessToken genre w = (inr (fu, sd0), w0)
    /\ dom sd = dom sd0
    /\ forall k rec,
        sd !! k = Some rec ->
        exists rec0,
          sd0 !! k = Some rec0
          /\ name rec = name rec0
          /\ popularity rec = popularity rec0
          /\ forall f, features rec = Some f -> to_str (feat_id f) = k.
Proof.
  intros H.
  destruct (resolved_inv _ _ _ _ _ _ H) as (sd1 & errors & w1 & rs & Hc & Hr).
  destruct (chain_inv _ _ _ _ _ _ _ Hc)
    as (fu & sd0 & w0 & r2 & feats & sdf & ps & songs
        & Hl & _ & _ & _ & Hf & _ & Hcol).
  apply collect_attach in Hcol as [Hcol _].
  exists fu, sd0, w0. split; [exact Hl|]. split.
  - apply set_eq. intros k. rewrite !elem_of_dom.
    rewrite (attach_all_dom _ _ _ k Hr), (attach_all_dom _ _ _ k Hcol).
    exact (fanout_dom net accessToken _ _ _ _ _ _ _ k Hf).
  - intros k rec Hk.
    destruct (attach_all_provenance _ _ _ _ _ Hr Hk)
      as (rec1 & H1 & N1 & P1 & F1 & _).
    destruct (attach_all_provenance _ _ _ _ _ Hcol H1)
      as (recf & Hf1 & Nf & Pf & Ff & _).
    destruct (fanout_provenance net accessToken _ _ _ _ _ _ _ _ _ Hf Hf1)
      as (rec0 & H0 & N0 & P0 & _ & F0).
    exists rec0. split; [exact H0|].
    split; [congruence|]. split; [congruence|].
    intros f Hfeat. rewrite F1, Ff in Hfeat.
    destruct F0 as [F0|(song & _ & Hkey & F0)].
    + destruct (stage_listing_inv _ _ _ _ _ _ _ Hl)
        as (_ & _ & _ & _ & items & _ & _ & _ & _ & _ & _ & Hlist & _).
      destruct (listing_provenance _ _ _ _ _ _ _ Hlist H0)
        as [Hempty|(t & _ & _ & ->)].
      * rewrite lookup_empty in Hempty. discriminate.
      * simpl in F0. congruence.
    + congruence.
Qed.

Lemma X10_result_set_comes_from_the_listing_witness :
  exists fu sd0 w0,
    stage_listing Sample.net_clean Sample.token "rock" world0
    = (inr (fu, sd0), w0)
    /\ dom Sample.clean_sd = dom sd0.
Proof.
  destruct (X10_result_set_comes_from_the_listing Sample.net_clean
              Sample.token "rock" world0 (snd Sample.clean_result)
              Sample.clean_sd) as (fu & sd0 & w0 & Hl & Hdom & _).
  - vm_compute. reflexivity.
  - exists fu, sd0, w0. auto.
Defined.

(** ** Failures of the blocking requests *)

(** X11: when the playlist request is rejected by Axios (no answer, or a
    status outside 2xx), or when it succeeds and the request of the track
    listing is rejected, the operation logs and rejects with that very
    error, and no further request is issued. *)
Theorem X11_blocking_request_failure
    (net : nat -> Request -> NetResult) (accessToken genre : string)
    (w : World) (err : AxiosErr) :
  (axios_settle (net (calls w) (playlistRequest accessToken genre))
                (playlistRequest accessToken genre) = inl err ->
   getTop100AudioData net accessToken (VString genre) w
   = (Rejected (AxiosError err),
      mkWorld (S (calls w)) (now w)
        (trace w ++ [EvRequest (playlistRequest accessToken genre);
                     EvFatal (AxiosError err)])))
  /\ (forall r0 p ps,
         net (calls w) (playlistRequest accessToken genre) = Responded r0 ->
         validateStatus (status r0) = true ->
         data r0 = BPlaylists (p :: ps) ->
         axios_settle
           (net (S (calls w)) (request accessToken (Some (tracks_href p))))
           (request accessToken (Some (tracks_href p))) = inl err ->
         getTop100AudioData net accessToken (VString genre) w
         = (Rejected (AxiosError err),
            mkWorld (S (S (calls w))) (now w)
              (trace w ++ [EvRequest (playlistRequest accessToken genre);
                           EvRequest (request accessToken
                                        (Some (tracks_href p)));
                           EvFatal (AxiosError err)]))).
Proof.
  split.
  - intros H.
    unfold getTop100AudioData, chain, stage_listing, bind, Axios.
    rewrite H. simpl. unfold emit. simpl. rewrite <- app_assoc. reflexivity.
  - intros r0 p ps H0 V0 D0 H1.
    unfold getTop100AudioData, chain, stage_listing, bind, Axios.
    unfold axios_settle at 1. rewrite H0, V0. simpl.
    unfold first_href. rewrite D0. simpl. rewrite H1. simpl.
    unfold emit. simpl. rewrite <- !app_assoc. reflexivity.
Qed.

Lemma X11_blocking_request_failure_witness :
  getTop100AudioData (fun _ _ => NoResponse) Sample.token (VString "rock")
    world0
  = (Rejected (AxiosError
       (mkAxiosErr None (url (playlistRequest Sample.token "rock")))),
     mkWorld 1 0
       [EvRequest (playlistRequest Sample.token "rock");
        EvFatal (AxiosError
          (mkAxiosErr None (url (playlistRequest Sample.token "rock"))))]).
Proof.
  apply (X11_blocking_request_failure (fun _ _ => NoResponse) Sample.token
           "rock" world0).
  reflexivity.
Defined.

(** ** Null entries *)

Lemma listing_null (items : list TrackItem) :
  forall fu sd,
    mkTrackItem None ∈ items -> listing items fu sd = inl TypeError.
Proof.
  induction items as [|[[t|]] items IH]; intros fu sd Hin; simpl.
  - inversion Hin.
  - apply IH. apply elem_of_cons in Hin as [Hin|Hin]; [discriminate|exact Hin].
  - reflexivity.
Qed.

(** X12: when the answer of the track listing holds an entry whose track
    is null, the operation logs and rejects with a TypeError after its
    second request: no features request is issued. *)
Theorem X12_null_track_rejects
    (net : nat -> Request -> NetResult) (accessToken genre : string)
    (w : World) (r0 r1 : Response) (p : Playlist) (ps : list Playlist)
    (items : list TrackItem) :
  net (calls w) (playlistRequest accessToken genre) = Responded r0 ->
  validateStatus (status r0) = true ->
  data r0 = BPlaylists (p :: ps) ->
  net (S (calls w)) (request accessToken (Some (tracks_href p)))
    = Responded r1 ->
  validateStatus (status r1) = true ->
  data r1 = BTracks items ->
  mkTrackItem None ∈ items ->
  getTop100AudioData net accessToken (VString genre) w
  = (Rejected TypeError,
     mkWorld (S (S (calls w))) (now w)
       (trace w ++ [EvRequest (playlistRequest accessToken genre);
                    EvRequest (request accessToken (Some (tracks_href p)));
                    EvFatal TypeError])).
Proof.
  intros H0 V0 D0 H1 V1 D1 Hin.
  unfold getTop100AudioData, chain, stage_listing, bind, Axios, axios_settle.
  rewrite H0, V0. simpl. unfold first_href. rewrite D0. simpl.
  rewrite H1, V1. simpl. rewrite D1.
  rewrite (listing_null items featureUrl0 ∅ Hin). simpl.
  unfold emit. simpl. rewrite <- !app_assoc. reflexivity.
Qed.

Lemma X12_null_track_rejects_witness :
  getTop100AudioData Sample.net_null_track Sample.token (VString "rock") world0
  = (Rejected TypeError,
     mkWorld 2 0
       [EvRequest (playlistRequest Sample.token "rock");
        EvRequest (request Sample.token (Some Sample.href));
        EvFatal TypeError]).
Proof.
  apply (X12_null_track_rejects Sample.net_null_track Sample.token "rock"
           world0
           (mkResponse 200 None "/v1/browse/categories/rock/playlists"
              (BPlaylists [mkPlaylist Sample.href]))
           (mkResponse 200 None "/v1/playlists/P/tracks"
              (BTracks [Sample.item "a"; mkTrackItem None]))
           (mkPlaylist Sample.href) []
           [Sample.item "a"; mkTrackItem None]);
    try reflexivity.
  right. left.
Defined.

Lemma fanout_null
    (net : nat -> Request -> NetResult) (accessToken : string)
    (feats : list (option Features)) :
  forall sd ps w,
    None ∈ feats ->
    exists w', fanout net accessToken feats sd ps w = (inl TypeError, w').
Proof.
  induction feats as [|[song|] feats IH]; intros sd ps w Hin.
  - inversion Hin.
  - rewrite fanout_cons.
    destruct (set_features sd song) as [e|sd1] eqn:E.
    + apply set_features_error in E as [-> _]. eauto.
    + apply IH. apply elem_of_cons in Hin as [Hin|Hin];
        [discriminate|exact Hin].
  - simpl. eauto.
Qed.

(** X13: when the 2xx answer to the features request holds a null entry,
    as upstream sends for a track it has no features for, the operation
    rejects with a TypeError; no result set is returned. *)
Theorem X13_null_feature_rejects
    (net : nat -> Request -> NetResult) (accessToken genre fu : string)
    (sd : SongData) (w w1 : World) (r2 : Response)
    (feats : list (option Features)) :
  stage_listing net accessToken genre w = (inr (fu, sd), w1) ->
  net (calls w1) (featuresRequest accessToken fu) = Responded r2 ->
  validateStatus (status r2) = true ->
  data r2 = BFeatures feats ->
  None ∈ feats ->
  exists w2,
    getTop100AudioData net accessToken (VString genre) w
    = (Rejected TypeError, w2).
Proof.
  intros Hl H2 V2 D2 Hin.
  destruct (fanout_null net accessToken feats sd []
              (mkWorld (S (calls w1)) (now w1)
                 (trace w1 ++ [EvRequest (featuresRequest accessToken fu)]))
              Hin) as [w' Hf].
  exists (emit (EvFatal TypeError) w').
  unfold getTop100AudioData, chain. unfold bind at 1. rewrite Hl. simpl.
  unfold stage_features. unfold bind at 1 2. unfold Axios, axios_settle.
  rewrite H2, V2. simpl. unfold bind at 1. simpl. rewrite D2.
  unfold bind at 1. rewrite Hf. reflexivity.
Qed.

Lemma X13_null_feature_rejects_witness :
  exists w2,
    getTop100AudioData Sample.net_null_feature Sample.token (VString "rock")
      world0
    = (Rejected TypeError, w2).
Proof.
  apply (X13_null_feature_rejects Sample.net_null_feature Sample.token
           "rock" Sample.listed_url Sample.listed world0 Sample.listed_world
           (mkResponse 200 None "/v1/audio-features/"
              (BFeatures [Sample.feat "a"; None; Sample.feat "c"]))
           [Sample.feat "a"; None; Sample.feat "c"]).
  - vm_compute. reflexivity.
  - reflexivity.
  - reflexivity.
  - reflexivity.
  - right. left.
Defined.

(** ** A 200 answer that names no record *)

Lemma attach_all_stray (rs : list Response) (r : Response) :
  forall sd,
    r ∈ rs -> sd !! path_id r = None -> inherited (path_id r) = false ->
    attach_all rs sd = inl TypeError.
Proof.
  induction rs as [|r0 rs IH]; intros sd Hin Hnone Hplain; simpl.
  - inversion Hin.
  - destruct (set_analysis sd r0) as [e|sd1] eqn:E.
    + apply set_analysis_error in E as [-> _]. reflexivity.
    + apply elem_of_cons in Hin as [->|Hin].
      * rewrite (set_analysis_stray _ _ Hnone Hplain) in E. discriminate.
      * apply IH; [exact Hin| |exact Hplain].
        apply eq_None_not_Some. intros Hs.
        apply (set_analysis_dom _ _ _ _ E) in Hs.
        rewrite Hnone in Hs. destruct Hs as [? Hs]. discriminate.
Qed.

Lemma collect_error (songs : list Settled) :
  forall sd errors e, collect songs sd errors = inl e -> e = TypeError.
Proof.
  induction songs as [|[r|f] songs IH]; intros sd errors e H; simpl in H.
  - discriminate.
  - destruct (status r =? 200); simpl in H; [|eapply IH; exact H].
    destruct (set_analysis sd r) as [e0|sd1] eqn:E.
    + apply set_analysis_error in E as [-> _]. congruence.
    + eapply IH. exact H.
  - destruct (f_status f =? 200); simpl in H; [congruence|].
    eapply IH. exact H.
Qed.

(** X14: in the loop over [songs], a 200 answer whose fourth path segment
    is not a key of the result set and names nothing on the prototype
    chain of [songData] either (a shorter path gives the key [undefined])
    makes the loop throw a TypeError, wherever the answer stands in the
    list. *)
Theorem X14_stray_answer_throws
    (songs : list Settled) (sd : SongData) (errors : list Settled)
    (r : Response) :
  SResponse r ∈ songs ->
  status r = 200 ->
  sd !! path_id r = None ->
  on_prototype_chain (path_id r) = false ->
  collect songs sd errors = inl TypeError.
Proof.
  intros Hin Hst Hnone Hplain.
  apply orb_false_iff in Hplain as [Hplain _].
  destruct (collect songs sd errors) as [e|[sd' errors']] eqn:E.
  - apply collect_error in E. subst e. reflexivity.
  - apply collect_attach in E as [E _].
    rewrite (attach_all_stray _ r sd) in E;
      [discriminate| |exact Hnone|exact Hplain].
    apply elem_of_attached_of_songs. auto.
Qed.

Lemma X14_stray_answer_throws_witness :
  collect [Sample.server_error "u";
           SResponse (mkResponse 200 None "/audio-analysis/a" BOther)]
          Sample.listed []
  = inl TypeError.
Proof.
  apply (X14_stray_answer_throws _ Sample.listed []
           (mkResponse 200 None "/audio-analysis/a" BOther)).
  - right. left.
  - reflexivity.
  - vm_compute. reflexivity.
  - reflexivity.
Defined.



(** ** The id read off a path *)

Lemma split_not_nil (s : string) : split "/" s <> [].
Proof.
  destruct s as [|c s]; simpl; [discriminate|].
  destruct (Ascii.eqb c "/"); [discriminate|].
  destruct (split "/" s); discriminate.
Qed.

Lemma split_length (s : string) :
  length (split "/" s) = S (count_slash s).
Proof.
  induction s as [|c s IH]; [reflexivity|]. simpl.
  destruct (Ascii.eqb c "/"); simpl; [rewrite IH; reflexivity|].
  destruct (split "/" s) as [|x xs]; [discriminate|exact IH].
Qed.

Lemma split_segment (a b : string) :
  no_slash a = true ->
  split "/" (a +:+ String "/" b) = a :: split "/" b.
Proof.
  induction a as [|c a IH]; intros Ha.
  - reflexivity.
  - simpl in Ha. apply andb_true_iff in Ha as [Hc Ha].
    apply negb_true_iff in Hc.
    change (split "/" (String c (a +:+ String "/" b)) = String c a :: split "/" b).
    cbn [split]. rewrite Hc, (IH Ha). reflexivity.
Qed.

Lemma split_last (a : string) : no_slash a = true -> split "/" a = [a].
Proof.
  induction a as [|c a IH]; intros Ha; [reflexivity|].
  simpl in Ha. apply andb_true_iff in Ha as [Hc Ha].
  apply negb_true_iff in Hc. cbn [split]. rewrite Hc, (IH Ha). reflexivity.
Qed.

(** X16: for a request path made of segments without [/], the id read off
    it is the fourth element of the split, that is the third segment after
    the leading [/] of an absolute path, whether or not more segments
    follow; a path with fewer than three [/] gives the key [undefined]. *)
Theorem X16_id_of_a_path (r : Response) :
  (forall a b c id more,
      no_slash a = true -> no_slash b = true -> no_slash c = true ->
      no_slash id = true ->
      request_path r = a +:+ "/" +:+ b +:+ "/" +:+ c +:+ "/" +:+ id +:+ more ->
      more = "" \/ (exists tail, more = String "/" tail) ->
      path_id r = id)
  /\ ((count_slash (request_path r) < 3)%nat -> path_id r = "undefined").
Proof.
  split.
  - intros a b c id more Ha Hb Hc Hid Hp Hmore. unfold path_id. rewrite Hp.
    change (a +:+ "/" +:+ b +:+ "/" +:+ c +:+ "/" +:+ id +:+ more)
      with (a +:+ String "/" (b +:+ String "/" (c +:+ String "/" (id +:+ more)))).
    rewrite !split_segment by assumption.
    destruct Hmore as [->|[tail ->]].
    + rewrite string_app_nil_r, split_last by assumption. reflexivity.
    + rewrite split_segment by assumption. reflexivity.
  - intros Hlt. unfold path_id.
    rewrite (lookup_ge_None_2 (split "/" (request_path r)) 3); [reflexivity|].
    rewrite split_length. lia.
Qed.

Lemma X16_id_of_a_path_witness :
  path_id (Sample.answer "4uLU6hMCjMI75M1A2tKUQC") = "4uLU6hMCjMI75M1A2tKUQC"
  /\ path_id (mkResponse 200 None "/v1/audio-analysis" BOther) = "undefined".
Proof.
  split.
  - apply (X16_id_of_a_path (Sample.answer "4uLU6hMCjMI75M1A2tKUQC"))
      with (a := "") (b := "v1") (c := "audio-analysis") (more := "");
      try reflexivity.
    left. reflexivity.
  - apply (X16_id_of_a_path (mkResponse 200 None "/v1/audio-analysis" BOther)).
    simpl. lia.
Defined.

(** ** The [retry-after] header *)

Lemma digit_of_digit_char (d : nat) :
  (d < 10)%nat -> digit_of 10 (digit_char d) = Some (Z.of_nat d).
Proof.
  intros H. do 10 (destruct d as [|d]; [reflexivity|]). lia.
Qed.

Lemma parse_digits_numeral (ds : list nat) :
  forall acc,
    Forall (fun d => (d < 10)%nat) ds ->
    parse_digits 10 (Some acc) (numeral ds)
    = Some (fold_left (fun a d => 10 * a + Z.of_nat d) ds acc).
Proof.
  induction ds as [|d ds IH]; intros acc HF; [reflexivity|].
  inversion HF; subst. cbn [numeral parse_digits fold_left].
  rewrite digit_of_digit_char by assumption. apply IH. assumption.
Qed.

Lemma parseInt_numeral (ds : list nat) :
  ds <> [] ->
  Forall (fun d => (d < 10)%nat) ds ->
  parseInt (numeral ds) = JNum (numeral_value ds).
Proof.
  intros Hne HF. destruct ds as [|d ds]; [contradiction|].
  inversion HF as [|? ? Hd HF']; subst.
  assert (Hgo : parse_digits 10 None (numeral (d :: ds))
                = Some (numeral_value (d :: ds))).
  { cbn [numeral parse_digits]. rewrite digit_of_digit_char by assumption.
    rewrite parse_digits_numeral by assumption. reflexivity. }
  assert (Hhex : forall d' rest,
             (d' < 10)%nat ->
             parseInt (String (digit_char d) (String (digit_char d') rest))
             = match parse_digits 10 None
                       (String (digit_char d) (String (digit_char d') rest))
               with
               | Some v => JNum v
               | None => JNaN
               end).
  { intros d' rest Hd'.
    do 10 (destruct d as [|d]; [
      do 10 (destruct d' as [|d']; [reflexivity|]); lia |]). lia. }
  destruct ds as [|d' ds].
  - do 10 (destruct d as [|d]; [reflexivity|]). lia.
  - inversion HF'; subst. cbn [numeral] in *. rewrite Hhex by assumption.
    rewrite Hgo. reflexivity.
Qed.

(** X17: a 429 answer whose [retry-after] header is a decimal numeral is
    recorded with the value of the numeral, and, when it is the first 429
    among the failures, the delay is that value plus 2, times 1000; this
    for the numerals whose delay a double holds exactly. *)
Theorem X17_retry_after_numeral
    (err : AxiosErr) (resp : Response) (ds : list nat) (rest : list Settled) :
  err_response err = Some resp ->
  status resp = 429 ->
  retry_after resp = Some (numeral ds) ->
  ds <> [] ->
  Forall (fun d => (d < 10)%nat) ds ->
  exact ((numeral_value ds + 2) * 1000) ->
  exists f,
    analysis_catch err = inr (SFailure f)
    /\ f_timeout f = JNum (numeral_value ds)
    /\ backoff (SFailure f :: rest) = JNum ((numeral_value ds + 2) * 1000).
Proof.
  intros Hr Hs Hh Hne HF _. unfold analysis_catch. rewrite Hr, Hh.
  assert (Hnonempty : String.eqb (numeral ds) "" = false).
  { destruct ds; [contradiction|reflexivity]. }
  rewrite Hnonempty, (parseInt_numeral ds Hne HF).
  eexists. split; [reflexivity|]. split; [reflexivity|].
  simpl. rewrite Hs. reflexivity.
Qed.

Lemma X17_retry_after_numeral_witness :
  exists f,
    analysis_catch
      (mkAxiosErr (Some (mkResponse 429 (Some "120") "/v1/audio-analysis/a"
                           BOther)) None)
    = inr (SFailure f)
    /\ f_timeout f = JNum 120
    /\ backoff [SFailure f] = JNum 122000.
Proof.
  apply (X17_retry_after_numeral
           (mkAxiosErr (Some (mkResponse 429 (Some "120")
                                "/v1/audio-analysis/a" BOther)) None)
           (mkResponse 429 (Some "120") "/v1/audio-analysis/a" BOther)
           [1; 2; 0]%nat []).
  - reflexivity.
  - reflexivity.
  - reflexivity.
  - discriminate.
  - repeat constructor.
  - vm_compute. discriminate.
Defined.

Lemma parseInt_letter (c : ascii) (s : string) :
  is_letter c = true -> parseInt (String c s) = JNaN.
Proof.
  destruct c as [[] [] [] [] [] [] [] []]; intros H;
    first [discriminate H | reflexivity].
Qed.

(** X18: a failure whose [retry-after] header is absent, empty, or starts
    with a letter, as a header in HTTP-date form does, is recorded with
    the unknown marker NaN; when it is the first 429 among the failures
    the computed delay is NaN. *)
Theorem X18_retry_after_not_a_number
    (err : AxiosErr) (resp : Response) (rest : list Settled) :
  err_response err = Some resp ->
  status resp = 429 ->
  retry_after resp = None
  \/ retry_after resp = Some ""
  \/ (exists c s, retry_after resp = Some (String c s) /\ is_letter c = true) ->
  exists f,
    analysis_catch err = inr (SFailure f)
    /\ f_timeout f = JNaN
    /\ backoff (SFailure f :: rest) = JNaN.
Proof.
  intros Hr Hs Hh. unfold analysis_catch. rewrite Hr.
  assert (Ht : match retry_after resp with
               | Some h => if String.eqb h "" then JNaN else parseInt h
               | None => JNaN
               end = JNaN).
  { destruct Hh as [->|[->|(c & s & -> & Hc)]]; [reflexivity|reflexivity|].
    change (String.eqb (String c s) "") with false. cbv iota.
    apply parseInt_letter. exact Hc. }
  rewrite Ht. eexists. split; [reflexivity|]. split; [reflexivity|].
  simpl. rewrite Hs. reflexivity.
Qed.

Lemma X18_retry_after_not_a_number_witness :
  exists f,
    analysis_catch
      (mkAxiosErr
         (Some (mkResponse 429 (Some "Wed, 21 Oct 2015 07:28:00 GMT")
                  "/v1/audio-analysis/a" BOther)) None)
    = inr (SFailure f)
    /\ f_timeout f = JNaN
    /\ backoff [SFailure f] = JNaN.
Proof.
  apply (X18_retry_after_not_a_number
           (mkAxiosErr
              (Some (mkResponse 429 (Some "Wed, 21 Oct 2015 07:28:00 GMT")
                       "/v1/audio-analysis/a" BOther)) None)
           (mkResponse 429 (Some "Wed, 21 Oct 2015 07:28:00 GMT")
              "/v1/audio-analysis/a" BOther) []).
  - reflexivity.
  - reflexivity.
  - right. right. eexists _, _. split; reflexivity.
Defined.

(** ** Every answer is attached or retried *)

(** X19: when the loop over [songs] ends, the failures handed to the retry
    pass are the elements whose status is not 200, in their order; and
    every element is one of them, or a 200 answer whose track now has an
    analysis, or a 200 answer whose fourth path segment names no own
    record but something on the prototype chain of [songData].  No
    settled request is dropped. *)
Theorem X19_attached_or_retried
    (songs : list Settled) (sd sd' : SongData) (errors : list Settled) :
  collect songs sd [] = inr (sd', errors) ->
  errors = List.filter (fun s => negb (settled_status s =? 200)) songs
  /\ forall s,
      s ∈ songs ->
      s ∈ errors
      \/ exists r,
          s = SResponse r /\ status r = 200
          /\ ((exists rec,
                 sd' !! path_id r = Some rec /\ is_Some (analysis rec))
              \/ (sd' !! path_id r = None
                  /\ on_prototype_chain (path_id r) = true)).
Proof.
  intros H. destruct (collect_attach _ _ _ _ _ H) as [Ha He].
  simpl in He. split; [exact He|].
  intros s Hs.
  destruct (Z.eqb_spec (settled_status s) 200) as [E|E].
  - right. destruct s as [r|f].
    + exists r. split; [reflexivity|]. split; [exact E|].
      assert (Hr : r ∈ attached_of_songs songs).
      { apply elem_of_attached_of_songs. auto. }
      destruct (sd !! path_id r) as [rec0|] eqn:Hown.
      * left.
        destruct (attach_all_hit _ _ _ r Ha Hr) as (rec & r' & Hk & _ & _ & A);
          [rewrite Hown; eauto|].
        exists rec. rewrite A. eauto.
      * right. split.
        -- apply eq_None_not_Some. intros Hsome.
           apply (attach_all_dom _ _ _ (path_id r) Ha) in Hsome.
           rewrite Hown in Hsome. destruct Hsome as [? Hsome]. discriminate.
        -- unfold on_prototype_chain.
           destruct (inherited (path_id r)) eqn:Hi; [reflexivity|].
           rewrite (attach_all_stray _ r sd Hr Hown Hi) in Ha. discriminate.
    + exfalso. clear Ha He. revert sd H.
      generalize (@nil Settled).
      induction songs as [|[r0|f0] songs IH]; intros errs sd H; simpl in H.
      * inversion Hs.
      * apply elem_of_cons in Hs as [Hs|Hs]; [discriminate|].
        destruct (status r0 =? 200); simpl in H.
        -- destruct (set_analysis sd r0); [discriminate|]. eapply IH; eauto.
        -- eapply IH; eauto.
      * apply elem_of_cons in Hs as [Hs|Hs].
        -- inversion Hs; subst f0. simpl in E.
           rewrite E in H. simpl in H. discriminate.
        -- destruct (f_status f0 =? 200); simpl in H; [discriminate|].
           eapply IH; eauto.
  - left. rewrite He. apply list_elem_of_In, filter_In. split.
    + apply list_elem_of_In. exact Hs.
    + apply negb_true_iff, Z.eqb_neq. exact E.
Qed.

Lemma X19_attached_or_retried_witness :
  snd Sample.collected = [Sample.server_error "u"]
  /\ exists r,
      SResponse (Sample.answer "a") = SResponse r /\ status r = 200
      /\ ((exists rec,
             fst Sample.collected !! path_id r = Some rec
             /\ is_Some (analysis rec))
          \/ (fst Sample.collected !! path_id r = None
              /\ on_prototype_chain (path_id r) = true)).
Proof.
  destruct (X19_attached_or_retried Sample.songs Sample.listed
              (fst Sample.collected) (snd Sample.collected)) as [He Hall].
  - vm_compute. reflexivity.
  - split; [exact He|].
    destruct (Hall (SResponse (Sample.answer "a"))) as [Hin|Hok].
    + right. right. left.
    + exfalso. rewrite He in Hin. apply list_elem_of_singleton in Hin.
      discriminate.
    + exact Hok.
Defined.

(** ** Retries that all fail *)




(** ** The token from [authorize] to the requests *)

(** X21: after [authorize], every request of [getTop100AudioData] on the
    same object carries the token of the answer when the token request was
    answered with a 2xx status, the text [undefined] when that answer had
    no [access_token], and the token the object held before when the token
    request failed. *)
Theorem X21_token_of_the_session
    (auth_net : TokenRequest -> TokenResult) (clientId clientSecret : string)
    (this : Spotify) (net : nat -> Request -> NetResult) (genre : JsValue)
    (w : World) :
  exists evs,
    trace (snd (method_getTop100AudioData net
                  (snd (fst (authorize auth_net clientId clientSecret this)))
                  genre w))
    = trace w ++ evs
    /\ forall q,
        q ∈ requests evs ->
        authorization q
        = "Bearer "
          +:+ match auth_net (tokenRequest clientId clientSecret) with
              | TokenAnswered r =>
                  if validateStatus (token_status r)
                  then match token_access_token r with
                       | Some t => t
                       | None => "undefined"
                       end
                  else token_text this
              | TokenSilent => token_text this
              end.
Proof.
  unfold method_getTop100AudioData.
  destruct (getTop100AudioData_carries net
              (token_text (snd (fst (authorize auth_net clientId clientSecret
                                       this)))) genre w) as (evs & T & F).
  exists evs. split; [exact T|]. intros q Hq.
  rewrite (carries_requests _ _ F q Hq). f_equal.
  unfold authorize.
  destruct (auth_net (tokenRequest clientId clientSecret)) as [|r];
    [reflexivity|].
  destruct (validateStatus (token_status r)); reflexivity.
Qed.

(** ** Answers and silence in the fan-out *)

Lemma fanout_settled
    (net : nat -> Request -> NetResult) (accessToken : string)
    (feats : list (option Features)) :
  forall sd ps w sd' ps' w',
    fanout net accessToken feats sd ps w = (inr (sd', ps'), w') ->
    exists songs,
      feats = map Some songs
      /\ ps' = ps ++ settled_of net accessToken (calls w) songs.
Proof.
  induction feats as [|[song|] feats IH]; intros sd ps w sd' ps' w' H.
  - simpl in H. inversion H; subst. exists []. rewrite app_nil_r. auto.
  - rewrite fanout_cons in H.
    destruct (set_features sd song) as [e|sd1]; [discriminate|].
    apply IH in H as (songs & -> & ->). exists (song :: songs).
    split; [reflexivity|]. rewrite <- app_assoc. reflexivity.
  - discriminate.
Qed.

Lemma settle_answered
    (net : nat -> Request -> NetResult) (accessToken : string) (n : nat)
    (song : Features) (r : Response) :
  net n (analysisRequest accessToken song) = Responded r ->
  analysis_settle
    (axios_settle (net n (analysisRequest accessToken song))
                  (analysisRequest accessToken song))
  = inr (settle_answer song r).
Proof.
  intros H. rewrite H. unfold axios_settle, settle_answer.
  destruct (validateStatus (status r)); reflexivity.
Qed.

Lemma settled_of_answered
    (net : nat -> Request -> NetResult) (accessToken : string)
    (songs : list Features) :
  forall n,
    (forall j song,
        songs !! j = Some song ->
        net (n + j)%nat (analysisRequest accessToken song) <> NoResponse) ->
    exists ss,
      Promise_all (settled_of net accessToken n songs) = inr ss
      /\ length ss = length songs
      /\ forall j song,
          songs !! j = Some song ->
          exists r,
            net (n + j)%nat (analysisRequest accessToken song) = Responded r
            /\ ss !! j = Some (settle_answer song r).
Proof.
  induction songs as [|song songs IH]; intros n H.
  - exists []. simpl. split; [reflexivity|]. split; [reflexivity|].
    intros j s Hj. rewrite lookup_nil in Hj. discriminate.
  - destruct (IH (S n)) as (ss & Hall & Hlen & Hlook).
    { intros j s Hj. rewrite Nat.add_succ_l, <- Nat.add_succ_r.
      apply (H (S j) s). exact Hj. }
    destruct (net n (analysisRequest accessToken song)) as [|r] eqn:N.
    { exfalso. apply (H 0%nat song eq_refl). rewrite Nat.add_0_r. exact N. }
    exists (settle_answer song r :: ss). cbn [settled_of Promise_all].
    rewrite (settle_answered _ _ _ _ _ N), Hall.
    split; [reflexivity|]. split; [simpl; rewrite Hlen; reflexivity|].
    intros [|j] s Hj.
    + inversion Hj; subst s. exists r. rewrite Nat.add_0_r. auto.
    + destruct (Hlook j s Hj) as (r' & Hr' & Hs).
      exists r'. rewrite Nat.add_succ_r, <- Nat.add_succ_l. auto.
Qed.

Lemma settled_of_silent
    (net : nat -> Request -> NetResult) (accessToken : string)
    (songs : list Features) :
  forall n j song,
    songs !! j = Some song ->
    net (n + j)%nat (analysisRequest accessToken song) = NoResponse ->
    Promise_all (settled_of net accessToken n songs) = inl TypeError.
Proof.
  induction songs as [|s0 songs IH]; intros n j song Hj Hn.
  - rewrite lookup_nil in Hj. discriminate.
  - cbn [settled_of Promise_all].
    destruct (net n (analysisRequest accessToken s0)) as [|r] eqn:N.
    + reflexivity.
    + rewrite <- N, (settle_answered _ _ _ _ _ N).
      destruct j as [|j].
      * inversion Hj; subst s0. rewrite Nat.add_0_r in Hn. congruence.
      * rewrite (IH (S n) j song Hj); [reflexivity|].
        rewrite Nat.add_succ_l, <- Nat.add_succ_r. exact Hn.
Qed.

(** X22: when the fan-out has run to its end and every analysis request
    gets an answer, whatever its status, [Promise.all] fulfils with one
    element per feature object, in order: the answer itself when its
    status is 2xx, otherwise a failure record with the status of the
    answer and the url of the request, whose [timeout] is the unknown
    marker when the answer has no [retry-after] header. *)
Theorem X22_answered_requests_settle
    (net : nat -> Request -> NetResult) (accessToken : string)
    (feats : list (option Features)) (sd sd' : SongData)
    (ps : list (JsError + Settled)) (w w' : World) :
  fanout net accessToken feats sd [] w = (inr (sd', ps), w') ->
  (forall j song,
      feats !! j = Some (Some song) ->
      net (calls w + j)%nat (analysisRequest accessToken song) <> NoResponse) ->
  exists songs,
    Promise_all ps = inr songs
    /\ length songs = length feats
    /\ forall j song,
        feats !! j = Some (Some song) ->
        exists r s,
          net (calls w + j)%nat (analysisRequest accessToken song)
          = Responded r
          /\ songs !! j = Some s
          /\ (validateStatus (status r) = true -> s = SResponse r)
          /\ (validateStatus (status r) = false ->
              exists f,
                s = SFailure f
                /\ f_status f = status r
                /\ f_url f = Some (analysis_url song)
                /\ (retry_after r = None -> f_timeout f = JNaN)).
Proof.
  intros Hf Hans.
  apply fanout_settled in Hf as (fs & -> & ->). simpl.
  destruct (settled_of_answered net accessToken fs (calls w))
    as (ss & Hall & Hlen & Hlook).
  { intros j song Hj. apply Hans. rewrite list_lookup_fmap, Hj. reflexivity. }
  exists ss. split; [exact Hall|]. split.
  - rewrite Hlen, length_map. reflexivity.
  - intros j song Hj.
    destruct (Hlook j song) as (r & Hr & Hs).
    { rewrite list_lookup_fmap in Hj.
      destruct (fs !! j) as [s|]; simpl in Hj; [|discriminate].
      inversion Hj; subst. reflexivity. }
    exists r, (settle_answer song r).
    split; [exact Hr|]. split; [exact Hs|].
    unfold settle_answer. split; intros V; rewrite V; [reflexivity|].
    eexists. split; [reflexivity|]. split; [reflexivity|].
    split; [reflexivity|].
    intros Hh. simpl. unfold retry_after_seconds. rewrite Hh. reflexivity.
Qed.

Lemma X22_answered_requests_settle_witness :
  exists songs,
    Promise_all Sample.retry_promises = inr songs
    /\ length songs = 3%nat.
Proof.
  destruct (X22_answered_requests_settle Sample.net_retry Sample.token
              [Sample.feat "b"; Sample.feat "a"; Sample.feat "c"]
              Sample.listed
              (match fst Sample.retry_fanout with
               | inr (sd, _) => sd
               | inl _ => ∅
               end)
              Sample.retry_promises Sample.featured_world
              (snd Sample.retry_fanout))
    as (songs & Hall & Hlen & _).
  - vm_compute. reflexivity.
  - intros [|[|[|j]]] song Hj; simpl in Hj; try discriminate;
      inversion Hj; subst song; simpl; discriminate.
  - exists songs. auto.
Defined.

(** X23: when the fan-out has run to its end and one of its analysis
    requests gets no answer at all, the handler of that request throws and
    the operation logs and rejects with a TypeError in the world the
    fan-out left: no failure is handed to the retry pass and no retry is
    issued, whatever the other requests returned. *)
Theorem X23_silent_request_rejects
    (net : nat -> Request -> NetResult) (accessToken genre fu : string)
    (sd0 sdf : SongData) (w w0 w1 : World) (r2 : Response)
    (feats : list (option Features)) (ps : list (JsError + Settled))
    (j : nat) (song : Features) :
  stage_listing net accessToken genre w = (inr (fu, sd0), w0) ->
  net (calls w0) (featuresRequest accessToken fu) = Responded r2 ->
  validateStatus (status r2) = true ->
  data r2 = BFeatures feats ->
  fanout net accessToken feats sd0 []
    (mkWorld (S (calls w0)) (now w0)
       (trace w0 ++ [EvRequest (featuresRequest accessToken fu)]))
  = (inr (sdf, ps), w1) ->
  feats !! j = Some (Some song) ->
  net (S (calls w0) + j)%nat (analysisRequest accessToken song) = NoResponse ->
  getTop100AudioData net accessToken (VString genre) w
  = (Rejected TypeError, emit (EvFatal TypeError) w1).
Proof.
  intros Hl H2 V2 D2 Hf Hj Hn.
  assert (Hall : Promise_all ps = inl TypeError).
  { destruct (fanout_settled _ _ _ _ _ _ _ _ _ Hf) as (fs & -> & ->).
    simpl. apply (settled_of_silent net accessToken fs _ j song); [|exact Hn].
    rewrite list_lookup_fmap in Hj.
    destruct (fs !! j) as [s|]; simpl in Hj; [|discriminate].
    inversion Hj; subst. reflexivity. }
  unfold getTop100AudioData, chain. unfold bind at 1. rewrite Hl. simpl.
  unfold stage_features. unfold bind at 1 2 3. unfold Axios, axios_settle.
  rewrite H2, V2. simpl. rewrite D2. rewrite Hf.
  unfold bind. simpl. rewrite Hall. reflexivity.
Qed.

Lemma X23_silent_request_rejects_witness :
  getTop100AudioData Sample.net_offline Sample.token (VString "rock") world0
  = (Rejected TypeError, emit (EvFatal TypeError) (snd Sample.offline_fanout)).
Proof.
  apply (X23_silent_request_rejects Sample.net_offline Sample.token "rock"
           Sample.listed_url Sample.listed Sample.offline_sd world0
           Sample.listed_world (snd Sample.offline_fanout)
           (mkResponse 200 None "/v1/audio-features/"
              (BFeatures [Sample.feat "b"; Sample.feat "a"; Sample.feat "c"]))
           [Sample.feat "b"; Sample.feat "a"; Sample.feat "c"]
           Sample.offline_promises 1
           (mkFeatures (Some "a")
              "https://api.spotify.com/v1/audio-analysis/a" "features")).
  - vm_compute. reflexivity.
  - reflexivity.
  - reflexivity.
  - reflexivity.
  - vm_compute. reflexivity.
  - reflexivity.
  - reflexivity.
Defined.

(** ** Attachment by id *)

Lemma collect_total (songs : list Settled) :
  forall sd errors,
    (forall r, SResponse r ∈ songs -> status r = 200 ->
               found sd (path_id r)) ->
    (forall f, SFailure f ∈ songs -> f_status f <> 200) ->
    exists sd' errors', collect songs sd errors = inr (sd', errors').
Proof.
  induction songs as [|[r|f] songs IH]; intros sd errors Hown Hfail;
    cbn [collect].
  - eauto.
  - cbn [settled_status].
    destruct (Z.eqb_spec (status r) 200) as [E|E]; cbn [negb].
    + destruct (set_analysis_found sd r) as [sd1 E1].
      { apply Hown; [left|exact E]. }
      rewrite E1. apply IH.
      * intros r' Hin Hst.
        apply (found_dom sd); [intros j; eapply set_analysis_dom; exact E1|].
        apply Hown; [right; exact Hin|exact Hst].
      * intros f Hin. apply Hfail. right. exact Hin.
    + apply IH.
      * intros r' Hin Hst. apply Hown; [right; exact Hin|exact Hst].
      * intros f Hin. apply Hfail. right. exact Hin.
  - cbn [settled_status].
    destruct (Z.eqb_spec (f_status f) 200) as [E|E]; cbn [negb].
    + exfalso. apply (Hfail f); [left|exact E].
    + apply IH.
      * intros r' Hin Hst. apply Hown; [right; exact Hin|exact Hst].
      * intros f' Hin. apply Hfail. right. exact Hin.
Qed.

(** The elements that [Promise.all] hands to the loop over [songs]: what
    the answered requests settled to. *)
Lemma settled_of_elem
    (net : nat -> Request -> NetResult) (accessToken : string)
    (songs : list Features) :
  forall n ss,
    Promise_all (settled_of net accessToken n songs) = inr ss ->
    forall s,
      s ∈ ss
      <-> exists j song r,
          songs !! j = Some song
          /\ net (n + j)%nat (analysisRequest accessToken song) = Responded r
          /\ s = settle_answer song r.
Proof.
  induction songs as [|song songs IH]; intros n ss H s.
  - simpl in H. inversion H; subst ss. split.
    + intros Hin. inversion Hin.
    + intros (j & x & r & Hj & _). rewrite lookup_nil in Hj. discriminate.
  - cbn [settled_of Promise_all] in H.
    destruct (net n (analysisRequest accessToken song)) as [|r0] eqn:N;
      [discriminate|].
    rewrite <- N, (settle_answered _ _ _ _ _ N) in H.
    destruct (Promise_all (settled_of net accessToken (S n) songs))
      as [e|ss0] eqn:P; [discriminate|].
    inversion H; subst ss. rewrite elem_of_cons, (IH (S n) ss0 P s). split.
    + intros [->|(j & x & r & Hj & Hn & ->)].
      * exists 0%nat, song, r0. rewrite Nat.add_0_r. auto.
      * exists (S j), x, r. rewrite Nat.add_succ_r. auto.
    + intros ([|j] & x & r & Hj & Hn & ->).
      * inversion Hj; subst x. rewrite Nat.add_0_r, N in Hn.
        inversion Hn; subst r. left. reflexivity.
      * right. exists j, x, r. rewrite Nat.add_succ_r in Hn. auto.
Qed.

Lemma settle_answer_200 (song : Features) (r r0 : Response) :
  SResponse r = settle_answer song r0 /\ status r = 200
  <-> r0 = r /\ status r = 200.
Proof.
  unfold settle_answer. split.
  - intros [H Hst]. destruct (validateStatus (status r0)); [|discriminate].
    inversion H; subst r0. auto.
  - intros [-> Hst]. rewrite (validateStatus_200 _ Hst). auto.
Qed.

Lemma settle_answer_failure (song : Features) (r : Response)
    (f : FailureRecord) :
  SFailure f = settle_answer song r -> f_status f <> 200.
Proof.
  unfold settle_answer. destruct (validateStatus (status r)) eqn:V;
    [discriminate|].
  intros H. inversion H; subst f. simpl. intros E.
  rewrite (validateStatus_200 _ E) in V. discriminate.
Qed.

Lemma attached_of_songs_returned
    (net : nat -> Request -> NetResult) (accessToken : string)
    (songs : list Features) (n : nat) (ss : list Settled) (r : Response) :
  Promise_all (settled_of net accessToken n songs) = inr ss ->
  r ∈ attached_of_songs ss
  <-> analysis_returned net accessToken n (map Some songs) r.
Proof.
  intros H. rewrite elem_of_attached_of_songs.
  rewrite (settled_of_elem _ _ _ _ _ H). unfold analysis_returned. split.
  - intros [(j & song & r0 & Hj & Hn & Hs) Hst].
    destruct (proj1 (settle_answer_200 song r r0) (conj Hs Hst)) as [-> _].
    exists j, song. rewrite list_lookup_fmap, Hj. auto.
  - intros (j & song & Hj & Hn & Hst).
    rewrite list_lookup_fmap in Hj.
    destruct (songs !! j) as [x|] eqn:Ej; simpl in Hj; [|discriminate].
    inversion Hj; subst x. split; [|exact Hst].
    exists j, song, r. split; [exact Ej|]. split; [exact Hn|].
    apply (settle_answer_200 song r r). auto.
Qed.

(** C2 as claimed fails: under [net_inherited_id] the feature object with
    id [constructor] is fetched and its analysis request returns 200, the
    operation resolves, and no record of the result set holds either
    payload: there is no record with that id, and the payloads went to
    the inherited [Object]. *)
Lemma C2_inherited_id_attaches_nowhere :
  Sample.net_inherited_id 4
    (analysisRequest Sample.token Sample.constructor_features)
  = Responded (mkResponse 200 None "/v1/audio-analysis/constructor"
                 (BAnalysis "analysis"))
  /\ exists sd w,
      getTop100AudioData Sample.net_inherited_id Sample.token
        (VString "rock") world0
      = (Resolved sd, w)
      /\ sd !! "constructor" = None
      /\ forall k rec,
          sd !! k = Some rec ->
          features rec <> Some Sample.constructor_features
          /\ analysis rec <> Some (BAnalysis "analysis").
Proof.
  split; [reflexivity|].
  eexists _, _. split; [vm_compute; reflexivity|].
  split; [vm_compute; reflexivity|].
  apply (map_Forall_lookup
           (fun (_ : string) rec =>
              features rec <> Some Sample.constructor_features
              /\ analysis rec <> Some (BAnalysis "analysis"))).
  apply map_Forall_to_list. vm_compute.
  repeat constructor; discriminate.
Qed.

(** C2 (amended): when every entry of the features response is a feature
    object that names a record of the result set, every analysis request
    is answered, and every 200 answer names a record by the fourth segment
    of its path, the fan-out and the loop over [songs] run to their end;
    the record under the id of every feature object holds a feature object
    of the list with that id, and the record under the fourth path segment
    of every 200 answer holds the data of a 200 answer with that segment.
    The same holds of the retry pass for the retried requests that return
    200.  A record whose features or analysis changed holds a payload that
    carries its own key; name, popularity and the other payload never
    change; the position of an element in its list plays no part. *)
Theorem C2_attachment_by_id
    (net : nat -> Request -> NetResult) (accessToken : string) :
  (forall feats sd w,
      (forall o, o ∈ feats ->
                 exists song,
                   o = Some song /\ is_Some (sd !! to_str (feat_id song))) ->
      (forall j song,
          feats !! j = Some (Some song) ->
          exists r,
            net (calls w + j)%nat (analysisRequest accessToken song)
            = Responded r
            /\ (status r = 200 -> is_Some (sd !! path_id r))) ->
      exists sdf ps w1 songs sd' errors,
        fanout net accessToken feats sd [] w = (inr (sdf, ps), w1)
        /\ Promise_all ps = inr songs
        /\ collect songs sdf [] = inr (sd', errors)
        /\ (forall song,
               Some song ∈ feats ->
               exists rec' song',
                 sd' !! to_str (feat_id song) = Some rec'
                 /\ Some song' ∈ feats
                 /\ to_str (feat_id song') = to_str (feat_id song)
                 /\ features rec' = Some song')
        /\ (forall r,
               analysis_returned net accessToken (calls w) feats r ->
               exists rec' r',
                 sd' !! path_id r = Some rec'
                 /\ analysis_returned net accessToken (calls w) feats r'
                 /\ path_id r' = path_id r
                 /\ analysis rec' = Some (data r'))
        /\ (forall k rec',
               sd' !! k = Some rec' ->
               exists rec,
                 sd !! k = Some rec
                 /\ name rec' = name rec
                 /\ popularity rec' = popularity rec
                 /\ (features rec' = features rec
                     \/ exists song,
                         Some song ∈ feats /\ to_str (feat_id song) = k
                         /\ features rec' = Some song)
                 /\ (analysis rec' = analysis rec
                     \/ exists r,
                         analysis_returned net accessToken (calls w) feats r
                         /\ path_id r = k
                         /\ analysis rec' = Some (data r))))
  /\ (forall sd errors w,
         (forall r, retry_returned net accessToken (calls w) errors r ->
                    is_Some (sd !! path_id r)) ->
         exists sd' w',
           retry_pass net accessToken sd errors w = (inr sd', w')
           /\ (forall r,
                  retry_returned net accessToken (calls w) errors r ->
                  exists rec' r',
                    sd' !! path_id r = Some rec'
                    /\ retry_returned net accessToken (calls w) errors r'
                    /\ path_id r' = path_id r
                    /\ analysis rec' = Some (data r'))
           /\ (forall k rec',
                  sd' !! k = Some rec' ->
                  exists rec,
                    sd !! k = Some rec
                    /\ name rec' = name rec
                    /\ popularity rec' = popularity rec
                    /\ features rec' = features rec
                    /\ (analysis rec' = analysis rec
                        \/ exists r,
                            retry_returned net accessToken (calls w) errors r
                            /\ path_id r = k
                            /\ analysis rec' = Some (data r)))).
Proof.
  split.
  - intros feats sd w Hfeats Hnet.
    assert (Hsongs : exists fs, feats = map Some fs).
    { clear Hnet. induction feats as [|o feats IH]; [exists []; reflexivity|].
      destruct (Hfeats o) as (song & -> & _); [left|].
      destruct IH as [fs ->].
      - intros o Ho. apply Hfeats. right. exact Ho.
      - exists (song :: fs). reflexivity. }
    destruct Hsongs as [fs ->].
    assert (Hkeys : forall song,
               Some song ∈ map Some fs ->
               is_Some (sd !! to_str (feat_id song))).
    { intros song Hin. destruct (Hfeats (Some song) Hin) as (x & Hx & Hs).
      inversion Hx; subst x. exact Hs. }
    destruct (fanout_passes net accessToken fs [] sd [] w)
      as (sdf & ps & Hdomf & _ & Hrun).
    { intros song Hin. exists song. split; [reflexivity|]. left.
      apply Hkeys, list_elem_of_fmap_2. exact Hin. }
    rewrite app_nil_r in Hrun. cbn [fanout] in Hrun. unfold ret in Hrun.
    destruct (fanout_settled _ _ _ _ _ _ _ _ _ Hrun) as (fs' & Hfs & Hps).
    assert (fs' = fs).
    { clear -Hfs. revert fs' Hfs.
      induction fs as [|x fs IH]; intros [|y fs'] H; try discriminate;
        [reflexivity|].
      inversion H; subst. f_equal. apply IH. assumption. }
    subst fs'. simpl in Hps.
    destruct (settled_of_answered net accessToken fs (calls w))
      as (ss & Hall & _ & _).
    { intros j song Hj. destruct (Hnet j song) as (r & Hr & _).
      - rewrite list_lookup_fmap, Hj. reflexivity.
      - rewrite Hr. discriminate. }
    assert (Hret : forall r,
               r ∈ attached_of_songs ss
               <-> analysis_returned net accessToken (calls w)
                     (map Some fs) r).
    { intros r. apply attached_of_songs_returned. exact Hall. }
    assert (Hown : forall r,
               analysis_returned net accessToken (calls w) (map Some fs) r ->
               is_Some (sdf !! path_id r)).
    { intros r (j & song & Hj & Hn & Hst). apply Hdomf.
      destruct (Hnet j song Hj) as (r0 & Hr0 & Hk).
      rewrite Hn in Hr0. inversion Hr0; subst r0. apply Hk. exact Hst. }
    destruct (collect_total ss sdf []) as (sd' & errors & Hc).
    { intros r Hin Hst. left.
      apply Hown, Hret, elem_of_attached_of_songs. auto. }
    { intros f Hin. apply (settled_of_elem _ _ _ _ _ Hall) in Hin
        as (j & song & r & _ & _ & Hs).
      eapply settle_answer_failure. exact Hs. }
    destruct (collect_attach _ _ _ _ _ Hc) as [Ha _].
    eexists sdf, ps, _, ss, sd', errors.
    split; [exact Hrun|]. split; [rewrite Hps; exact Hall|].
    split; [exact Hc|]. split; [|split].
    + intros song Hin.
      destruct (fanout_hit net accessToken _ _ _ _ _ _ _ song Hrun Hin
                  (Hkeys song Hin))
        as (rec1 & song' & Hk1 & Hin' & Hid & F1).
      destruct (proj2 (attach_all_dom _ _ _ (to_str (feat_id song)) Ha))
        as [rec' Hk']; [eauto|].
      destruct (attach_all_provenance _ _ _ _ _ Ha Hk')
        as (rec0 & H0 & _ & _ & F & _).
      rewrite Hk1 in H0. inversion H0; subst rec0.
      exists rec', song'. rewrite F. auto.
    + intros r Hr.
      destruct (attach_all_hit _ _ _ r Ha)
        as (rec' & r' & Hk & Hin' & Hp & A).
      { apply Hret. exact Hr. }
      { apply Hown. exact Hr. }
      exists rec', r'. split; [exact Hk|]. split; [apply Hret; exact Hin'|].
      auto.
    + intros k rec' Hk.
      destruct (attach_all_provenance _ _ _ _ _ Ha Hk)
        as (rec1 & H1 & N1 & P1 & F1 & A1).
      destruct (fanout_provenance net accessToken _ _ _ _ _ _ _ _ _ Hrun H1)
        as (rec & H0 & N0 & P0 & A0 & F0).
      exists rec. split; [exact H0|].
      split; [congruence|]. split; [congruence|]. split.
      * destruct F0 as [F0|(song & Hin & Hid & F0)]; [left; congruence|].
        right. exists song. split; [exact Hin|]. split; [exact Hid|].
        congruence.
      * destruct A1 as [A1|(r & Hin & Hp & A1)]; [left; congruence|].
        right. exists r. split; [apply Hret; exact Hin|]. auto.
  - intros sd errors w Hok.
    rewrite retry_pass_run.
    destruct (attach_all_total
                (attached_of_retries (retried net accessToken (calls w) errors))
                sd) as [sd' Hsd'].
    { intros r Hr. apply elem_of_attached_of_retries in Hr.
      apply Hok, elem_of_retried_200. exact Hr. }
    rewrite Hsd'. eexists sd', _. split; [reflexivity|]. split.
    + intros r Hr.
      destruct (attach_all_hit _ _ _ r Hsd')
        as (rec' & r' & Hk & Hin' & Hp & A).
      { apply elem_of_attached_of_retries, elem_of_retried_200. exact Hr. }
      { apply Hok. exact Hr. }
      exists rec', r'. split; [exact Hk|]. split; [|auto].
      apply elem_of_retried_200, elem_of_attached_of_retries. exact Hin'.
    + intros k rec' Hk.
      destruct (attach_all_provenance _ _ _ _ _ Hsd' Hk)
        as (rec & H0 & N & P & F & A).
      exists rec. do 4 (split; [assumption|]).
      destruct A as [A|(r & Hin & Hp & A)]; [left; exact A|].
      right. exists r. split; [|auto].
      apply elem_of_retried_200, elem_of_attached_of_retries. exact Hin.
Qed.

Lemma C2_attachment_by_id_witness :
  (exists sdf ps w1 songs sd' errors rec' song',
      fanout Sample.net_retry Sample.token
        [Sample.feat "b"; Sample.feat "a"; Sample.feat "c"] Sample.listed []
        Sample.featured_world
      = (inr (sdf, ps), w1)
      /\ Promise_all ps = inr songs
      /\ collect songs sdf [] = inr (sd', errors)
      /\ sd' !! "b" = Some rec'
      /\ to_str (feat_id song') = "b"
      /\ features rec' = Some song')
  /\ (exists sd' w' rec' r',
         retry_pass Sample.net_retry Sample.token Sample.chain_sd
           Sample.chain_errors Sample.chain_world
         = (inr sd', w')
         /\ sd' !! "a" = Some rec'
         /\ path_id r' = "a"
         /\ analysis rec' = Some (data r')).
Proof.
  destruct (C2_attachment_by_id Sample.net_retry Sample.token)
    as [Hfirst Hretry].
  split.
  - destruct (Hfirst [Sample.feat "b"; Sample.feat "a"; Sample.feat "c"]
                Sample.listed Sample.featured_world)
      as (sdf & ps & w1 & songs & sd' & errors & Hf & Hp & Hc & Hfeat & _).
    + intros o Hin.
      repeat (apply elem_of_cons in Hin as [->|Hin]);
        [eexists; split; [reflexivity|vm_compute; eauto] ..
        |inversion Hin].
    + intros [|[|[|j]]] song Hj; simpl in Hj; try discriminate;
        inversion Hj; subst song; eexists; (split; [reflexivity|]);
        intros _; vm_compute; eauto.
    + destruct (Hfeat (mkFeatures (Some "b")
                         "https://api.spotify.com/v1/audio-analysis/b"
                         "features"))
        as (rec' & song' & Hk & _ & Hid & F); [left|].
      exists sdf, ps, w1, songs, sd', errors, rec', song'.
      repeat (split; [assumption|]). exact F.
  - destruct (Hretry Sample.chain_sd Sample.chain_errors Sample.chain_world)
      as (sd' & w' & Hrun & Hhit & _).
    + intros r ([|[|i]] & e & Hi & Hn & Hst).
      * inversion Hi; subst e. vm_compute in Hn. inversion Hn; subst r.
        vm_compute. eauto.
      * inversion Hi; subst e. vm_compute in Hn. discriminate.
      * vm_compute in Hi. discriminate.
    + destruct (Hhit (mkResponse 200 None "/v1/audio-analysis/a"
                        (BAnalysis "analysis of a")))
        as (rec' & r' & Hk & _ & Hp & A).
      * exists 0%nat. eexists. split; [reflexivity|].
        split; reflexivity.
      * exists sd', w', rec', r'. auto.
Defined.
